(** * AIHistoryLine: the timeline sorter and the request cycle of [src/index.tsx]

    The development embeds the two pieces of logic of the application:
    the comparator handed to [Array.prototype.sort] in [fetchTimeline]
    (lines 54-58) together with the request/response cycle around it
    (lines 22-67), and the submit guard [handleSubmit] (lines 69-74).

    JavaScript strings are sequences of UTF-16 code units, JavaScript
    numbers are binary64 values; both are written out below as far as the
    program observes them. *)

From Stdlib Require Import List ZArith NArith Bool Lia String Ascii.
From Stdlib Require Import Permutation Sorted.
Import ListNotations.

Set Warnings "-register-all".

Local Open Scope Z_scope.

(* ================================================================== *)
(** ** Strings *)

Module JsString.

(** A code unit of a JavaScript string (0 .. 65535). *)
Definition code_unit := N.

Definition jsstring := list code_unit.

(** ASCII literals, written as Rocq strings. *)
Definition js (s : string) : jsstring :=
  List.map N_of_ascii (list_ascii_of_string s).

(** [\d] of a regular expression without the [u] flag: the ten ASCII
    digits; [\D] is its complement. *)
Definition is_digit (c : code_unit) : bool :=
  ((48 <=? c) && (c <=? 57))%N.

(** [s.replace(/\D/g, '')]: every code unit that is not a digit is
    dropped. *)
Definition replace_non_digits (s : jsstring) : jsstring :=
  filter is_digit s.

(** WhiteSpace and LineTerminator of ECMAScript, the code units that
    [String.prototype.trim] strips. *)
Definition is_white_space (c : code_unit) : bool :=
  existsb (N.eqb c)
    [9; 10; 11; 12; 13; 32; 160; 5760;
     8192; 8193; 8194; 8195; 8196; 8197; 8198; 8199; 8200; 8201; 8202;
     8232; 8233; 8239; 8287; 12288; 65279]%N.

Fixpoint trim_start (s : jsstring) : jsstring :=
  match s with
  | [] => []
  | c :: r => if is_white_space c then trim_start r else s
  end.

Definition trim_end (s : jsstring) : jsstring :=
  rev (trim_start (rev s)).

(** [s.trim()]. *)
Definition trim (s : jsstring) : jsstring :=
  trim_end (trim_start s).

(** ToBoolean on a string: the empty string is the only falsy one. *)
Definition truthy (s : jsstring) : bool :=
  match s with [] => false | _ :: _ => true end.

Fixpoint starts_with (pat s : jsstring) : bool :=
  match pat, s with
  | [], _ => true
  | _ :: _, [] => false
  | p :: pat', c :: s' => (N.eqb p c) && starts_with pat' s'
  end.

(** [s.includes(pat)]: [pat] occurs at some position of [s]. *)
Fixpoint includes (s pat : jsstring) : bool :=
  starts_with pat s ||
  match s with
  | [] => false
  | _ :: r => includes r pat
  end.

Fixpoint eqb (a b : jsstring) : bool :=
  match a, b with
  | [], [] => true
  | x :: a', y :: b' => (N.eqb x y) && eqb a' b'
  | _, _ => false
  end.

End JsString.
Import JsString.

(* ================================================================== *)
(** ** Numbers *)

Module JsNumber.

(** The binary64 values the comparator can produce: they are all
    integral, infinite or NaN.  The two zeros are identified: the
    program never observes the sign of a zero. *)
Inductive number : Type :=
| NaN
| Num (z : Z)
| PosInf
| NegInf.

(** Identity of values (not [===], under which NaN differs from
    itself). *)
Definition number_eqb (a b : number) : bool :=
  match a, b with
  | NaN, NaN => true
  | Num x, Num y => x =? y
  | PosInf, PosInf => true
  | NegInf, NegInf => true
  | _, _ => false
  end.

(** Rounding of a positive integer to the nearest binary64 value, ties
    to even; [None] when the result overflows. *)
Definition round_magnitude (m : Z) : option Z :=
  if m <? 2 ^ 53 then Some m
  else
    let e := Z.log2 m - 52 in
    let q := m / 2 ^ e in
    let r := m mod 2 ^ e in
    let half := 2 ^ (e - 1) in
    let q' := if (half <? r) || ((r =? half) && Z.odd q) then q + 1 else q in
    let v := q' * 2 ^ e in
    if 2 ^ 1024 <=? v then None else Some v.

(** The Number value for a mathematical integer. *)
Definition number_of_Z (z : Z) : number :=
  match z with
  | Z0 => Num 0
  | Zpos _ =>
      match round_magnitude z with Some v => Num v | None => PosInf end
  | Zneg _ =>
      match round_magnitude (- z) with Some v => Num (- v) | None => NegInf end
  end.

(** Unary minus. *)
Definition neg (a : number) : number :=
  match a with
  | NaN => NaN
  | Num z => Num (- z)
  | PosInf => NegInf
  | NegInf => PosInf
  end.

(** Binary minus: the exact difference of two finite values, rounded. *)
Definition sub (a b : number) : number :=
  match a, b with
  | NaN, _ | _, NaN => NaN
  | Num x, Num y => number_of_Z (x - y)
  | Num _, PosInf => NegInf
  | Num _, NegInf => PosInf
  | PosInf, PosInf => NaN
  | PosInf, _ => PosInf
  | NegInf, NegInf => NaN
  | NegInf, _ => NegInf
  end.

(** [a < b] and [a <= b] of JavaScript: false when an operand is NaN. *)
Definition ltb (a b : number) : bool :=
  match a, b with
  | NaN, _ | _, NaN => false
  | Num x, Num y => x <? y
  | NegInf, NegInf => false
  | NegInf, _ => true
  | _, NegInf => false
  | PosInf, _ => false
  | _, PosInf => true
  end.

Definition leb (a b : number) : bool :=
  match a, b with
  | NaN, _ | _, NaN => false
  | Num x, Num y => x <=? y
  | NegInf, _ => true
  | _, NegInf => false
  | _, PosInf => true
  | PosInf, _ => false
  end.

Definition is_NaN (a : number) : bool :=
  match a with NaN => true | _ => false end.

(** Value of a sequence of decimal digits, most significant first. *)
Definition digit_value (c : code_unit) : Z := Z.of_N c - 48.

Definition decimal_value (s : jsstring) : Z :=
  fold_left (fun acc c => 10 * acc + digit_value c) s 0.

(** [parseInt(s)] on the strings the comparator passes to it.  The
    argument is the result of [replace(/\D/g, '')], so it holds digits
    only: the steps of [parseInt] for leading white space, a sign and a
    [0x] prefix never apply, and the radix is 10.  The digits that are
    read are the leading run of digits; with none the result is NaN.
    The value is rounded exactly; an engine may instead zero the digits
    after the twentieth, which changes neither the sign of the result
    nor whether it is NaN, the two facts the proofs below rest on. *)
Fixpoint leading_digits (s : jsstring) : jsstring :=
  match s with
  | [] => []
  | c :: r => if is_digit c then c :: leading_digits r else []
  end.

Definition parseInt (s : jsstring) : number :=
  match leading_digits s with
  | [] => NaN
  | ds => number_of_Z (decimal_value ds)
  end.

End JsNumber.
Import JsNumber.

(* ================================================================== *)
(** ** Exceptions *)

Inductive exception : Type :=
| SyntaxError     (* thrown by JSON.parse *)
| TypeError       (* property access on null, call of a non-function, ... *)
| RequestError.   (* the awaited generateContent promise rejected *)

Inductive Result (A : Type) : Type :=
| Ok (a : A)
| Throw (e : exception).

Arguments Ok {A} a.
Arguments Throw {A} e.

Definition bind {A B : Type} (r : Result A) (k : A -> Result B) : Result B :=
  match r with
  | Ok a => k a
  | Throw e => Throw e
  end.

Notation "x <- r ;; k" := (bind r (fun x => k))
  (at level 61, r at next level, right associativity).

(* ================================================================== *)
(** ** [Array.prototype.sort]

    ECMAScript requires the sort to be stable and, for a comparator that
    is a consistent comparison function, fixes the result; for any other
    comparator the order is implementation-defined.  The model is the
    stable insertion sort: it is the result every conforming engine
    gives for a consistent comparator (see [stable_sort_unique] below),
    and one admissible behaviour otherwise.

    The comparator of the application is consistent on the events whose
    year text has a digit.  With a year that has none (a NaN tie) an
    engine may order the array otherwise than this sort does; what then
    holds of every engine is that the result is a permutation and
    whether the comparator throws.  Statements about the order of such
    arrays are made of [V8Sort.sort] below, the algorithm of one
    engine, or of lists on which the engines agree. *)

Module ArraySort.

(** SortCompare: the comparator's result [v] is replaced by [+0] when
    it is NaN; [x] is placed after [y] when the result is positive. *)
Definition sorts_after (v : number) : bool :=
  if is_NaN v then false else ltb (Num 0) v.

Section Total.
Context {A : Type}.
Variable comparefn : A -> A -> number.

Fixpoint insert (x : A) (l : list A) : list A :=
  match l with
  | [] => [x]
  | y :: r =>
      if sorts_after (comparefn x y) then y :: insert x r
      else x :: y :: r
  end.

Fixpoint sort (l : list A) : list A :=
  match l with
  | [] => []
  | x :: r => insert x (sort r)
  end.

(** [x] is not to be placed after [y]. *)
Definition in_order (x y : A) : Prop :=
  sorts_after (comparefn x y) = false.
End Total.

(** The same algorithm for a comparator that can throw: the first
    exception ends the sort. *)
Section Throwing.
Context {A : Type}.
Variable comparefn : A -> A -> Result number.

Fixpoint insert_throwing (x : A) (l : list A) : Result (list A) :=
  match l with
  | [] => Ok [x]
  | y :: r =>
      v <- comparefn x y ;;
      if sorts_after v then
        (r' <- insert_throwing x r ;; Ok (y :: r'))
      else Ok (x :: y :: r)
  end.

Fixpoint sort_throwing (l : list A) : Result (list A) :=
  match l with
  | [] => Ok []
  | x :: r => (s <- sort_throwing r ;; insert_throwing x s)
  end.
End Throwing.

End ArraySort.
Import ArraySort.

(* ================================================================== *)
(** ** The comparator on a year text (lines 55-56)

    [String(a.year).includes('BC') ? -parseInt(digits) : parseInt(digits)]
    with [digits = String(a.year).replace(/\D/g, '')]. *)

Definition BC : jsstring := js "BC".

Definition signed_year (yearText : jsstring) : number :=
  if includes yearText BC
  then neg (parseInt (replace_non_digits yearText))
  else parseInt (replace_non_digits yearText).

(* ================================================================== *)
(** ** Typed events (lines 5-11) *)

(** [year: number | string].  A number is carried by the text that
    [String] gives for it, the only way the program looks at it. *)
Inductive YearField : Type :=
| YearNumber (shown : jsstring)
| YearString (s : jsstring).

Record TimelineEvent : Type := mkEvent {
  year : YearField;
  title : jsstring;
  description : jsstring;
  details : jsstring;
  link : option jsstring
}.

(** [String(a.year)]. *)
Definition year_text (a : TimelineEvent) : jsstring :=
  match year a with
  | YearNumber shown => shown
  | YearString s => s
  end.

Definition effective_year (a : TimelineEvent) : number :=
  signed_year (year_text a).

(** The arrow function of lines 54-58. *)
Definition compare_events (a b : TimelineEvent) : number :=
  let yearA := effective_year a in
  let yearB := effective_year b in
  sub yearA yearB.

(** The Timeline Sorter: [events.sort((a, b) => ...)]. *)
Definition sortEvents (events : list TimelineEvent) : list TimelineEvent :=
  sort compare_events events.

(* ================================================================== *)
(** ** Run-time values

    The type annotation [events: TimelineEvent[]] of line 51 is erased at
    run time: what [JSON.parse] returns, and what the comparator is
    called on, is any JSON value. *)

Inductive value : Type :=
| VUndefined
| VNull
| VBool (b : bool)
| VNumber (shown : jsstring)      (* a number, carried by its String image *)
| VString (s : jsstring)
| VArray (items : list value)
| VObject (props : list (jsstring * value)).

(** Own property of a decoded object; a decoded object holds each key
    once, the first binding of the list is the property. *)
Fixpoint own_property (props : list (jsstring * value)) (key : jsstring)
  : option value :=
  match props with
  | [] => None
  | (k, v) :: r => if JsString.eqb k key then Some v else own_property r key
  end.

(** [a.year].  Reading a property of [null] or [undefined] throws; on
    any other value the property is the own one of an object, and
    [undefined] otherwise (no prototype has a [year]). *)
Definition get_year (a : value) : Result value :=
  match a with
  | VUndefined | VNull => Throw TypeError
  | VObject props =>
      match own_property props (js "year") with
      | Some v => Ok v
      | None => Ok VUndefined
      end
  | _ => Ok VUndefined
  end.

(** [String(v)].  An array is joined with commas, its [null] and
    [undefined] elements giving the empty text.  A decoded object is
    [[object Object]], unless it has an own [toString] property: that
    property is not callable, and neither it nor [valueOf] gives a
    primitive, which is a TypeError. *)
Fixpoint ToString (v : value) : Result jsstring :=
  match v with
  | VUndefined => Ok (js "undefined")
  | VNull => Ok (js "null")
  | VBool true => Ok (js "true")
  | VBool false => Ok (js "false")
  | VNumber shown => Ok shown
  | VString s => Ok s
  | VArray items =>
      (fix join (l : list value) : Result jsstring :=
         match l with
         | [] => Ok []
         | x :: r =>
             sx <- match x with
                   | VUndefined | VNull => Ok []
                   | _ => ToString x
                   end ;;
             match r with
             | [] => Ok sx
             | _ :: _ => (sr <- join r ;; Ok (sx ++ js "," ++ sr))
             end
         end) items
  | VObject props =>
      match own_property props (js "toString") with
      | Some _ => Throw TypeError
      | None => Ok (js "[object Object]")
      end
  end.

(** One side of the comparator: [yearA] of line 55, [yearB] of 56. *)
Definition year_of (a : value) : Result number :=
  y <- get_year a ;;
  yearText <- ToString y ;;
  Ok (signed_year yearText).

(** The arrow function of lines 54-58 on run-time values. *)
Definition compare_values (a b : value) : Result number :=
  yearA <- year_of a ;;
  yearB <- year_of b ;;
  Ok (sub yearA yearB).

(** [events.sort(comparefn)]: only an array has a [sort] method; on
    [null] the property read throws, on any other value [sort] is
    [undefined] (or a decoded, non-callable property) and the call
    throws.  A decoded array has no hole and no [undefined] element, so
    the comparator is called on the elements as they are. *)
Definition events_sort (events : value) : Result (list value) :=
  match events with
  | VArray items => sort_throwing compare_values items
  | _ => Throw TypeError
  end.

(** A typed event as the run-time object it is. *)
Definition year_value (y : YearField) : value :=
  match y with
  | YearNumber shown => VNumber shown
  | YearString s => VString s
  end.

Definition to_value (e : TimelineEvent) : value :=
  VObject
    ([(js "year", year_value (year e));
      (js "title", VString (title e));
      (js "description", VString (description e));
      (js "details", VString (details e))]
     ++ match link e with
        | Some u => [(js "link", VString u)]
        | None => []
        end).

(* ================================================================== *)
(** ** The declared response schema (lines 33-46) *)

Inductive Schema : Type :=
| TypeSTRING
| TypeARRAY (items : Schema)
| TypeOBJECT (properties : list (jsstring * Schema)) (required : list jsstring).

Definition responseSchema : Schema :=
  TypeARRAY
    (TypeOBJECT
       [(js "year", TypeSTRING);
        (js "title", TypeSTRING);
        (js "description", TypeSTRING);
        (js "details", TypeSTRING);
        (js "link", TypeSTRING)]
       [js "year"; js "title"; js "description"; js "details"]).

(** A value conforms to a schema: a string for STRING; an array whose
    elements conform for ARRAY; for OBJECT an object that has every
    required property and whose declared properties, when present,
    conform. *)
Fixpoint conforms (sch : Schema) (v : value) : bool :=
  match sch, v with
  | TypeSTRING, VString _ => true
  | TypeARRAY items, VArray l => forallb (conforms items) l
  | TypeOBJECT properties required, VObject props =>
      forallb
        (fun k => match own_property props k with Some _ => true | None => false end)
        required
      &&
      (fix each (ps : list (jsstring * Schema)) : bool :=
         match ps with
         | [] => true
         | (k, s) :: r =>
             match own_property props k with
             | Some x => conforms s x
             | None => true
             end && each r
         end) properties
  | _, _ => false
  end.

(* ================================================================== *)
(** ** The component state and the request cycle (lines 13-74) *)

(** The five [useState] cells of [App]. *)
Record State : Type := mkState {
  prompt : jsstring;
  timelineEvents : list value;
  isLoading : bool;
  error : option jsstring;
  selectedEvent : option value
}.

Definition setIsLoading (b : bool) (st : State) : State :=
  mkState (prompt st) (timelineEvents st) b (error st) (selectedEvent st).

Definition setError (e : option jsstring) (st : State) : State :=
  mkState (prompt st) (timelineEvents st) (isLoading st) e (selectedEvent st).

Definition setTimelineEvents (l : list value) (st : State) : State :=
  mkState (prompt st) l (isLoading st) (error st) (selectedEvent st).

(** The argument of [ai.models.generateContent] (lines 28-48). *)
Record Request : Type := mkRequest {
  model : jsstring;
  contents : jsstring;
  responseMimeType : jsstring;
  schema : Schema
}.

(** The template literal of line 30, before and after [${userPrompt}]. *)
Definition contents_prefix : jsstring :=
  [45796; 51020; 32; 50836; 52397; 50640; 32; 45824; 54620; 32; 50669;
   49324; 51201; 32; 49324; 44148; 32; 47785; 47197; 51012; 32; 49884;
   44036; 49692; 51004; 47196; 32; 49373; 49457; 54644; 51480; 58; 32; 34]%N.

Definition contents_suffix : jsstring :=
  [34; 46; 32; 44033; 32; 49324; 44148; 50640; 32; 45824; 54644; 32;
   50672; 46020; 44; 32; 51228; 47785; 44; 32; 44036; 45800; 54620; 32;
   49444; 47749; 40; 49; 45; 50; 47928; 51109; 41; 44; 32; 44536; 47532;
   44256; 32; 49345; 49464; 54620; 32; 49444; 47749; 51012; 32; 54252;
   54632; 54644; 51480; 46; 32; 50937; 49324; 51060; 53944; 47484; 32;
   52280; 44256; 54664; 45796; 47732; 32; 47553; 53356; 46020; 32; 54252;
   54632; 54644; 51480; 46]%N.

Definition build_request (userPrompt : jsstring) : Request :=
  mkRequest (js "gemini-2.5-flash")
            (contents_prefix ++ userPrompt ++ contents_suffix)
            (js "application/json")
            responseSchema.

(** The text of line 63. *)
Definition fetch_error_message : jsstring :=
  [53440; 51076; 46972; 51064; 32; 51221; 48372; 47484; 32; 44032; 51256;
   50724; 45716; 32; 45936; 32; 49892; 54056; 54664; 49845; 45768; 45796;
   46; 32; 45796; 49884; 32; 49884; 46020; 54644; 32; 51452; 49464; 50836;
   46]%N.

Section App.

(** The external service: the awaited call either rejects or resolves
    to a response, of which the program reads [text]. *)
Variable generateContent : Request -> Result jsstring.

(** [JSON.parse] of the platform: a decoded value or a SyntaxError. *)
Variable JSON_parse : jsstring -> Result value.

(** The [try] block of lines 27-60, up to the value handed to
    [setTimelineEvents]. *)
Definition request_and_decode (userPrompt : jsstring) : Result (list value) :=
  text <- generateContent (build_request userPrompt) ;;
  let jsonString := trim text in
  events <- JSON_parse jsonString ;;
  sortedEvents <- events_sort events ;;
  Ok sortedEvents.

(** [fetchTimeline]: the state once the returned promise has settled,
    and the requests sent to the service.  The setters touch their own
    cell only, so the three cells written here do not depend on what
    the user does to the other two while the request is in flight. *)
Definition fetchTimeline (userPrompt : jsstring) (st : State)
  : State * list Request :=
  let st := setIsLoading true st in
  let st := setError None st in
  let st := setTimelineEvents [] st in
  let st :=
    match request_and_decode userPrompt with
    | Ok sortedEvents => setTimelineEvents sortedEvents st
    | Throw _ => setError (Some fetch_error_message) st
    end in
  (setIsLoading false st, [build_request userPrompt]).

(** [handleSubmit] (lines 69-74). *)
Definition handleSubmit (st : State) : State * list Request :=
  if truthy (trim (prompt st)) then fetchTimeline (prompt st) st
  else (st, []).

End App.

(** The state in which a failed cycle ends: no events, not loading, the
    one error message; the prompt and the selection as they were. *)
Definition failed_state (st : State) : State :=
  mkState (prompt st) [] false (Some fetch_error_message) (selectedEvent st).

(** The state in which a successful cycle ends. *)
Definition succeeded_state (sortedEvents : list value) (st : State) : State :=
  mkState (prompt st) sortedEvents false None (selectedEvent st).

(** A [JSON.parse] given by its graph on finitely many texts, every other
    text being a SyntaxError; used to run the cycle on concrete
    responses. *)
Fixpoint parse_table (table : list (jsstring * value)) (text : jsstring)
  : Result value :=
  match table with
  | [] => Throw SyntaxError
  | (t, v) :: r => if JsString.eqb t text then Ok v else parse_table r text
  end.

(* ================================================================== *)
(** ** Sample data and auxiliary predicates *)

(** An event given by its year text and its title alone. *)
Definition event (y t : string) : TimelineEvent :=
  mkEvent (YearString (js y)) (js t) [] [] None.

(** The year text has at least one digit. *)
Definition has_digit (s : jsstring) : bool := existsb is_digit s.

Definition dated (e : TimelineEvent) : bool := has_digit (year_text e).

(** The events of a list whose effective year is [y]. *)
Definition with_year (y : number) (l : list TimelineEvent) : list TimelineEvent :=
  filter (fun e => number_eqb (effective_year e) y) l.

(** Ascending effective years: every event is at most every later one. *)
Definition year_le (a b : TimelineEvent) : Prop :=
  leb (effective_year a) (effective_year b) = true.

Definition ascending (l : list TimelineEvent) : Prop :=
  StronglySorted year_le l.

(** The effective year of a run-time value, NaN standing for a value
    whose year cannot be read. *)
Definition year_or_NaN (a : value) : number :=
  match year_of a with
  | Ok n => n
  | Throw _ => NaN
  end.

(** The declared schema with no property required. *)
Definition lenientSchema : Schema :=
  match responseSchema with
  | TypeARRAY (TypeOBJECT properties _) => TypeARRAY (TypeOBJECT properties [])
  | sch => sch
  end.

(** JSON text of an array of objects with string fields, and the value
    [JSON.parse] decodes it to. *)
Definition quoted (s : string) : jsstring := [34%N] ++ js s ++ [34%N].

Fixpoint join_with (sep : jsstring) (parts : list jsstring) : jsstring :=
  match parts with
  | [] => []
  | [p] => p
  | p :: r => p ++ sep ++ join_with sep r
  end.

Definition object_text (fields : list (string * string)) : jsstring :=
  js "{" ++
  join_with (js ",") (map (fun kv => quoted (fst kv) ++ js ":" ++ quoted (snd kv)) fields)
  ++ js "}".

Definition array_text (objects : list (list (string * string))) : jsstring :=
  js "[" ++ join_with (js ",") (map object_text objects) ++ js "]".

Definition object_value (fields : list (string * string)) : value :=
  VObject (map (fun kv => (js (fst kv), VString (js (snd kv)))) fields).

Definition array_value (objects : list (list (string * string))) : value :=
  VArray (map object_value objects).

(** A response with a complete event and one that has no [year]. *)
Definition incomplete_response : list (list (string * string)) :=
  [ [("year", "1392"); ("title", "Joseon founded");
     ("description", "A new dynasty"); ("details", "Yi Seong-gye takes the throne")];
    [("title", "Gojoseon falls");
     ("description", "The end of Gojoseon"); ("details", "Wanggeom-seong is taken")] ]%string.

(** A service that answers every request with the same text, and one
    that rejects every request. *)
Definition answering (text : jsstring) : Request -> Result jsstring :=
  fun _ => Ok text.

Definition rejecting : Request -> Result jsstring :=
  fun _ => Throw RequestError.

(** The state of the application when it starts (lines 14-18), the
    prompt left as a parameter. *)
Definition initial_state (p : jsstring) : State :=
  mkState p [] false None None.

(* ================================================================== *)
(** ** The sort of one engine

    The sort of V8 (TimSort, [builtins/array-sort.tq]) on an array of
    fewer than 64 elements.  The minimal run length is then the length
    of the array, so the whole array is made one run and nothing is
    merged: the run at the start is counted, reversed when it is
    strictly descending, and the other elements are added to it one by
    one by binary insertion. *)

Module V8Sort.

(** [order < 0], [order] being the comparator's result with NaN read
    as [+0]. *)
Definition is_negative (v : number) : bool :=
  if is_NaN v then false else ltb v (Num 0).

Section Engine.
Context {A : Type}.
Variable comparefn : A -> A -> number.

(** The loop of [CountAndMakeRun]: how many of the elements after the
    first two extend the run. *)
Fixpoint run_tail (isDescending : bool) (previousElement : A) (rest : list A)
  : nat :=
  match rest with
  | [] => O
  | currentElement :: rest' =>
      let order := comparefn currentElement previousElement in
      if (if isDescending then negb (is_negative order) else is_negative order)
      then O
      else S (run_tail isDescending currentElement rest')
  end.

(** [CountAndMakeRun(0, length)]: the array with its first run
    ascending, and the length of that run. *)
Definition CountAndMakeRun (work : list A) : list A * nat :=
  match work with
  | elementHigh :: elementLow :: rest =>
      let isDescending := is_negative (comparefn elementLow elementHigh) in
      let runLength := (2 + run_tail isDescending elementLow rest)%nat in
      (if isDescending
       then rev (firstn runLength work) ++ skipn runLength work
       else work,
       runLength)
  | _ => (work, List.length work)
  end.

(** The binary search of [BinaryInsertionSort]; the interval
    [left, right) halves at each step, [fuel] bounds the steps and does
    not run out when it exceeds the width of the interval
    ([insertion_point_fuel]). *)
Fixpoint insertion_point (fuel : nat) (work : list A) (pivot : A)
         (left right : nat) : nat :=
  match fuel with
  | O => left
  | S fuel' =>
      if (left <? right)%nat then
        let mid := (left + Nat.div2 (right - left))%nat in
        match nth_error work mid with
        | Some x =>
            if is_negative (comparefn pivot x)
            then insertion_point fuel' work pivot left mid
            else insertion_point fuel' work pivot (S mid) right
        | None => left
        end
      else left
  end.

(** The element at [start] is put at [left], those of [left, start)
    moving up by one. *)
Definition move_to (work : list A) (start left : nat) (pivot : A) : list A :=
  firstn left work ++ pivot :: skipn left (firstn start work)
  ++ skipn (S start) work.

(** [BinaryInsertionSort(0, start, start + count)]. *)
Fixpoint BinaryInsertionSort (count start : nat) (work : list A) : list A :=
  match count with
  | O => work
  | S count' =>
      match nth_error work start with
      | Some pivot =>
          let left := insertion_point (S start) work pivot 0 start in
          BinaryInsertionSort count' (S start) (move_to work start left pivot)
      | None => work
      end
  end.

(** The sort; undefined here for an array of 64 elements or more. *)
Definition sort (work : list A) : option (list A) :=
  if (List.length work <? 64)%nat then
    let (work', runLength) := CountAndMakeRun work in
    Some (BinaryInsertionSort (List.length work - runLength) runLength work')
  else None.

End Engine.
End V8Sort.

(** A strictly later year, for descending runs; a year that is a
    number. *)
Definition year_gt (a b : TimelineEvent) : Prop :=
  ltb (effective_year b) (effective_year a) = true.

Definition year_known (e : TimelineEvent) : Prop :=
  is_NaN (effective_year e) = false.

(** Five events of the year 935 and one of 1392, around an event whose
    year has no digit. *)
Definition unstable_input : list TimelineEvent :=
  [event "1392" "Joseon founded"; event "935" "a"; event "935" "b";
   event "935" "c"; event "unknown" "Undated"; event "935" "d";
   event "935" "e"].

(* ================================================================== *)
(** ** What is rendered (lines 76-123) *)

(** The four alternatives of the main area (lines 80-108). *)
Inductive MainContent : Type :=
| Loader
| ErrorMessage (message : jsstring)
| Placeholder
| TimelineItems (events : list value).

(** What rendering the main area comes to: an alternative that is shown,
    or an exception, on which React unmounts the tree. *)
Inductive Rendered : Type :=
| Shows (content : MainContent)
| RenderThrows.

(** [event.title], [event.year], [event.description] (lines 97-103):
    reading a property of [null] or [undefined] throws; no prototype
    has one of these three names. *)
Definition read_property (key : jsstring) (a : value) : Result value :=
  match a with
  | VUndefined | VNull => Throw TypeError
  | VObject props =>
      match own_property props key with
      | Some v => Ok v
      | None => Ok VUndefined
      end
  | _ => Ok VUndefined
  end.

(** A value between the tags of an element.  Strings and numbers are
    text; booleans, [null] and [undefined] give nothing; an array gives
    its elements; a decoded object is not a valid child and React
    throws. *)
Fixpoint valid_child (v : value) : bool :=
  match v with
  | VObject _ => false
  | VArray items => forallb valid_child items
  | _ => true
  end.

(** One [<article>] of lines 97-105: the title is put in the template
    literal of [aria-label], and the year, the title and the description
    are children. *)
Definition item_renders (event : value) : bool :=
  match read_property (js "title") event,
        read_property (js "year") event,
        read_property (js "description") event with
  | Ok t, Ok y, Ok d =>
      match ToString t with
      | Ok _ => valid_child y && valid_child t && valid_child d
      | Throw _ => false
      end
  | _, _, _ => false
  end.

(** [isLoading ? ... : error ? ... : timelineEvents.length === 0 ? ... : ...];
    [error] is [null] or a string, and a string is truthy when it is not
    empty.  The first three alternatives are fixed markup and the error
    text; the last one maps the events to their items. *)
Definition main_content (st : State) : Rendered :=
  if isLoading st then Shows Loader
  else
    let list_or_placeholder :=
      match timelineEvents st with
      | [] => Shows Placeholder
      | _ :: _ =>
          if forallb item_renders (timelineEvents st)
          then Shows (TimelineItems (timelineEvents st))
          else RenderThrows
      end in
    match error st with
    | Some message =>
        if truthy message then Shows (ErrorMessage message) else list_or_placeholder
    | None => list_or_placeholder
    end.

(** [disabled={isLoading}] of the input and of the button (lines 118, 120). *)
Definition form_disabled (st : State) : bool := isLoading st.

(** The year of an event is a string, as the schema declares it. *)
Definition string_year (e : TimelineEvent) : bool :=
  match year e with
  | YearString _ => true
  | YearNumber _ => false
  end.

(** A response in which both events have every required property. *)
Definition complete_response : list (list (string * string)) :=
  [ [("year", "1392"); ("title", "Joseon founded");
     ("description", "A new dynasty"); ("details", "Yi Seong-gye takes the throne")];
    [("year", "BC 108"); ("title", "Gojoseon falls");
     ("description", "The end of Gojoseon"); ("details", "Wanggeom-seong is taken")] ]%string.

(** The integer the digits of a year text spell. *)
Definition spelled_year (s : jsstring) : Z :=
  decimal_value (replace_non_digits s).

(* ================================================================== *)
(** * Properties *)

(** ** Strings *)

Lemma trim_start_blank (s : jsstring) :
  forallb is_white_space s = true -> trim_start s = [].
Proof.
  induction s as [|c r IH]; simpl; [reflexivity|].
  intros H. apply andb_true_iff in H. destruct H as [Hc Hr].
  rewrite Hc. now apply IH.
Qed.

Lemma trim_start_nil_blank (s : jsstring) :
  trim_start s = [] -> forallb is_white_space s = true.
Proof.
  induction s as [|c r IH]; simpl; [reflexivity|].
  destruct (is_white_space c); [intros H; now apply IH | discriminate].
Qed.

Lemma trim_blank (s : jsstring) :
  forallb is_white_space s = true -> trim s = [].
Proof.
  intros H. unfold trim. now rewrite (trim_start_blank s H).
Qed.

Lemma trim_start_suffix (s : jsstring) :
  exists p, s = p ++ trim_start s /\ forallb is_white_space p = true.
Proof.
  induction s as [|c r [p [Hp Hw]]]; simpl.
  - exists []. split; reflexivity.
  - destruct (is_white_space c) eqn:Hc.
    + exists (c :: p). simpl. rewrite Hc, Hw. split; [now f_equal | reflexivity].
    + exists []. split; reflexivity.
Qed.

Lemma trim_nil_blank (s : jsstring) :
  trim s = [] -> forallb is_white_space s = true.
Proof.
  unfold trim, trim_end. intros H.
  destruct (trim_start_suffix s) as [p [Hp Hw]].
  assert (Hr : forallb is_white_space (rev (trim_start s)) = true).
  { apply trim_start_nil_blank.
    rewrite <- (rev_involutive (trim_start (rev (trim_start s)))).
    now rewrite H. }
  rewrite Hp, forallb_app, Hw. simpl.
  rewrite forallb_forall in Hr |- *.
  intros x Hx. apply Hr. now apply in_rev in Hx.
Qed.

Lemma leading_digits_all (s : jsstring) :
  leading_digits (replace_non_digits s) = replace_non_digits s.
Proof.
  unfold replace_non_digits.
  induction s as [|c r IH]; simpl; [reflexivity|].
  destruct (is_digit c) eqn:Hc; simpl; [rewrite Hc; now f_equal | exact IH].
Qed.

(** ** Numbers *)

Lemma round_magnitude_pos (m : Z) :
  0 < m ->
  match round_magnitude m with Some v => 0 < v | None => True end.
Proof.
  intros Hm. unfold round_magnitude.
  destruct (m <? 2 ^ 53) eqn:Hsmall; [exact Hm|].
  apply Z.ltb_ge in Hsmall.
  set (e := Z.log2 m - 52).
  assert (He : 0 < e).
  { assert (53 <= Z.log2 m) by (apply Z.log2_le_pow2; lia). unfold e. lia. }
  assert (Hpow : 0 < 2 ^ e) by (apply Z.pow_pos_nonneg; lia).
  assert (Hq : 0 < m / 2 ^ e).
  { apply Z.div_str_pos. split; [exact Hpow|].
    transitivity (2 ^ Z.log2 m).
    - apply Z.pow_le_mono_r; unfold e; lia.
    - apply Z.log2_spec. exact Hm. }
  cbv zeta.
  match goal with |- context [if ?c then m / 2 ^ e + 1 else m / 2 ^ e] =>
    set (q' := if c then m / 2 ^ e + 1 else m / 2 ^ e) end.
  assert (Hq' : 0 < q').
  { unfold q'. match goal with |- context [if ?c then _ else _] => destruct c end; lia. }
  destruct (2 ^ 1024 <=? q' * 2 ^ e); [exact I | nia].
Qed.

Lemma number_of_Z_sign (z : Z) :
  sorts_after (number_of_Z z) = (0 <? z).
Proof.
  destruct z as [|p|p]; simpl number_of_Z.
  - reflexivity.
  - pose proof (round_magnitude_pos (Z.pos p) (Pos2Z.is_pos p)) as H.
    destruct (round_magnitude (Z.pos p)) as [v|]; [|reflexivity].
    unfold sorts_after; simpl. now apply Z.ltb_lt.
  - pose proof (round_magnitude_pos (Z.pos p) (Pos2Z.is_pos p)) as H.
    destruct (round_magnitude (Z.pos p)) as [v|]; [|reflexivity].
    unfold sorts_after; simpl.
    apply Z.ltb_ge. lia.
Qed.

(** The sort reads of the comparator's result exactly whether the first
    year is greater than the second; a NaN on either side reads as a
    tie. *)
Lemma sorts_after_sub (a b : number) :
  sorts_after (sub a b) = ltb b a.
Proof.
  destruct a as [|x| |], b as [|y| |]; try reflexivity.
  simpl sub. rewrite number_of_Z_sign. simpl.
  destruct (0 <? x - y) eqn:H1, (y <? x) eqn:H2; try reflexivity;
    [apply Z.ltb_lt in H1; apply Z.ltb_ge in H2 | apply Z.ltb_ge in H1; apply Z.ltb_lt in H2]; lia.
Qed.

Lemma ltb_irrefl (a : number) : ltb a a = false.
Proof. destruct a; simpl; try reflexivity. apply Z.ltb_irrefl. Qed.

Lemma ltb_asym (a b : number) : ltb a b = true -> ltb b a = false.
Proof.
  destruct a as [|x| |], b as [|y| |]; simpl; try reflexivity; try discriminate.
  intros H. apply Z.ltb_lt in H. apply Z.ltb_ge. lia.
Qed.

Lemma not_ltb_leb (a b : number) :
  is_NaN a = false -> is_NaN b = false -> ltb b a = false -> leb a b = true.
Proof.
  destruct a as [|x| |], b as [|y| |]; simpl; try reflexivity; try discriminate.
  intros _ _ H. apply Z.ltb_ge in H. now apply Z.leb_le.
Qed.

Lemma leb_trans (a b c : number) :
  leb a b = true -> leb b c = true -> leb a c = true.
Proof.
  destruct a as [|x| |], b as [|y| |], c as [|z| |]; simpl;
    try reflexivity; try discriminate.
  intros H1 H2. apply Z.leb_le in H1, H2. apply Z.leb_le. lia.
Qed.

Lemma leb_antisym (a b : number) :
  leb a b = true -> leb b a = true -> a = b.
Proof.
  destruct a as [|x| |], b as [|y| |]; simpl;
    try reflexivity; try discriminate.
  intros H1 H2. apply Z.leb_le in H1, H2. f_equal. lia.
Qed.

Lemma leb_not_NaN (a b : number) :
  leb a b = true -> is_NaN a = false /\ is_NaN b = false.
Proof. destruct a, b; simpl; try discriminate; auto. Qed.

(** ** The sort, for any comparator *)

Section SortFacts.
Context {A : Type}.
Variable comparefn : A -> A -> number.

Local Abbreviation in_order := (in_order comparefn).

Lemma insert_split (x : A) (l : list A) :
  exists l1 l2,
    l = l1 ++ l2 /\ insert comparefn x l = l1 ++ x :: l2 /\
    Forall (fun y => sorts_after (comparefn x y) = true) l1.
Proof.
  induction l as [|y r IH]; simpl.
  - exists [], []. repeat split. constructor.
  - destruct (sorts_after (comparefn x y)) eqn:Hxy.
    + destruct IH as [l1 [l2 [H1 [H2 H3]]]].
      exists (y :: l1), l2. simpl. rewrite <- H1, H2.
      repeat split. now constructor.
    + exists [], (y :: r). repeat split. constructor.
Qed.

Lemma insert_perm (x : A) (l : list A) :
  Permutation (x :: l) (insert comparefn x l).
Proof.
  destruct (insert_split x l) as [l1 [l2 [H1 [H2 _]]]].
  rewrite H2, H1. apply Permutation_middle.
Qed.

Lemma sort_perm (l : list A) : Permutation l (sort comparefn l).
Proof.
  induction l as [|x r IH]; simpl.
  - constructor.
  - etransitivity; [apply perm_skip, IH | apply insert_perm].
Qed.

(** An element passes only elements it compares greater than, so a
    class of elements that never compare greater than each other keeps
    its order. *)
Lemma insert_filter (p : A -> bool) (x : A) (l : list A) :
  (forall y, p x = true -> p y = true -> in_order x y) ->
  filter p (insert comparefn x l) = filter p (x :: l).
Proof.
  intros Hp.
  destruct (insert_split x l) as [l1 [l2 [H1 [H2 H3]]]].
  rewrite H2, H1. simpl. rewrite !filter_app. simpl.
  destruct (p x) eqn:Hx; [|reflexivity].
  assert (Hnone : filter p l1 = []).
  { clear H1 H2. induction H3 as [|y l1 Hy _ IH]; simpl; [reflexivity|].
    destruct (p y) eqn:Hpy; [|exact IH].
    specialize (Hp y eq_refl Hpy). unfold in_order in Hp. congruence. }
  now rewrite Hnone.
Qed.

Lemma sort_filter (p : A -> bool) (l : list A) :
  (forall x y, p x = true -> p y = true -> in_order x y) ->
  filter p (sort comparefn l) = filter p l.
Proof.
  intros Hp. induction l as [|x r IH]; simpl; [reflexivity|].
  rewrite insert_filter by (intros y; apply Hp).
  simpl. now rewrite IH.
Qed.

(** With a comparator that never says "after" in both directions, the
    output has every neighbour pair in order, and such a list is left
    as it is. *)
Hypothesis comparefn_asym :
  forall x y, sorts_after (comparefn x y) = true -> in_order y x.

Lemma insert_HdRel (y x : A) (l : list A) :
  in_order y x -> HdRel in_order y l -> HdRel in_order y (insert comparefn x l).
Proof.
  intros Hyx Hl. destruct l as [|z r]; simpl.
  - now constructor.
  - destruct (sorts_after (comparefn x z)); constructor;
      [now inversion Hl | exact Hyx].
Qed.

Lemma insert_Sorted (x : A) (l : list A) :
  Sorted in_order l -> Sorted in_order (insert comparefn x l).
Proof.
  induction l as [|y r IH]; simpl; intros Hs.
  - repeat constructor.
  - inversion Hs as [|? ? Hr Hy]; subst.
    destruct (sorts_after (comparefn x y)) eqn:Hxy.
    + constructor; [now apply IH|].
      apply insert_HdRel; [now apply comparefn_asym | exact Hy].
    + constructor; [exact Hs | now constructor].
Qed.

Lemma sort_Sorted (l : list A) : Sorted in_order (sort comparefn l).
Proof.
  induction l as [|x r IH]; simpl; [constructor | now apply insert_Sorted].
Qed.

Lemma sort_fixpoint (l : list A) :
  Sorted in_order l -> sort comparefn l = l.
Proof.
  induction l as [|x r IH]; simpl; intros Hs; [reflexivity|].
  inversion Hs as [|? ? Hr Hx]; subst.
  rewrite (IH Hr).
  destruct r as [|y r']; simpl; [reflexivity|].
  inversion Hx as [|? ? Hxy]; subst. unfold in_order in Hxy. now rewrite Hxy.
Qed.

End SortFacts.

(** The throwing sort agrees with the total one wherever the comparator
    does not throw. *)
Lemma insert_throwing_total {A : Type}
      (cmpT : A -> A -> Result number) (cmp : A -> A -> number)
      (x : A) (l : list A) :
  (forall y, In y l -> cmpT x y = Ok (cmp x y)) ->
  insert_throwing cmpT x l = Ok (insert cmp x l).
Proof.
  induction l as [|y r IH]; simpl; intros H; [reflexivity|].
  rewrite (H y (or_introl eq_refl)). simpl.
  destruct (sorts_after (cmp x y)); [|reflexivity].
  rewrite IH by (intros z Hz; apply H; now right). reflexivity.
Qed.

Lemma sort_throwing_total {A : Type}
      (cmpT : A -> A -> Result number) (cmp : A -> A -> number)
      (l : list A) :
  (forall x y, In x l -> In y l -> cmpT x y = Ok (cmp x y)) ->
  sort_throwing cmpT l = Ok (sort cmp l).
Proof.
  induction l as [|x r IH]; simpl; intros H; [reflexivity|].
  rewrite IH by (intros a b Ha Hb; apply H; now right). simpl.
  apply insert_throwing_total.
  intros y Hy. apply H; [now left | right].
  eapply Permutation_in; [apply Permutation_sym, sort_perm | exact Hy].
Qed.

(** ** The comparator of the application *)

Lemma number_eqb_eq (a b : number) : number_eqb a b = true <-> a = b.
Proof.
  destruct a as [|x| |], b as [|y| |]; simpl; split; intros H;
    try reflexivity; try discriminate.
  - apply Z.eqb_eq in H. now subst.
  - inversion H. apply Z.eqb_refl.
Qed.

Lemma sorts_after_compare (a b : TimelineEvent) :
  sorts_after (compare_events a b) = ltb (effective_year b) (effective_year a).
Proof. unfold compare_events. apply sorts_after_sub. Qed.

Lemma compare_events_asym (x y : TimelineEvent) :
  sorts_after (compare_events x y) = true -> in_order compare_events y x.
Proof.
  unfold in_order. rewrite !sorts_after_compare. apply ltb_asym.
Qed.

Lemma number_of_Z_not_NaN (z : Z) : is_NaN (number_of_Z z) = false.
Proof.
  destruct z as [|p|p]; simpl; [reflexivity| |].
  - destruct (round_magnitude (Z.pos p)); reflexivity.
  - destruct (round_magnitude (Z.pos p)); reflexivity.
Qed.

Lemma neg_is_NaN (a : number) : is_NaN (neg a) = is_NaN a.
Proof. destruct a; reflexivity. Qed.

Lemma parseInt_digits_NaN (s : jsstring) :
  is_NaN (parseInt (replace_non_digits s)) = negb (has_digit s).
Proof.
  unfold parseInt. rewrite leading_digits_all.
  unfold replace_non_digits, has_digit.
  induction s as [|c r IH]; simpl; [reflexivity|].
  destruct (is_digit c) eqn:Hc; simpl.
  - apply number_of_Z_not_NaN.
  - exact IH.
Qed.

(** The effective year is NaN exactly for a year text without a digit. *)
Lemma signed_year_NaN (s : jsstring) :
  is_NaN (signed_year s) = negb (has_digit s).
Proof.
  unfold signed_year. destruct (includes s BC);
    [rewrite neg_is_NaN|]; apply parseInt_digits_NaN.
Qed.

Lemma sortEvents_Sorted (l : list TimelineEvent) :
  Sorted (in_order compare_events) (sortEvents l).
Proof. apply sort_Sorted. exact compare_events_asym. Qed.

Lemma sortEvents_perm (l : list TimelineEvent) : Permutation l (sortEvents l).
Proof. apply sort_perm. Qed.

Lemma year_le_trans : Relations_1.Transitive year_le.
Proof. intros a b c. unfold year_le. apply leb_trans. Qed.

(** When every year text has a digit, the output is ascending. *)
Lemma sortEvents_ascending (l : list TimelineEvent) :
  forallb dated l = true -> ascending (sortEvents l).
Proof.
  intros Hd. unfold ascending.
  apply Sorted_StronglySorted; [exact year_le_trans|].
  assert (Hall : Forall (fun e => is_NaN (effective_year e) = false) (sortEvents l)).
  { apply Forall_forall. intros e He.
    apply (Permutation_in e (Permutation_sym (sortEvents_perm l))) in He.
    rewrite forallb_forall in Hd. specialize (Hd e He).
    unfold effective_year. rewrite signed_year_NaN.
    unfold dated in Hd. now rewrite Hd. }
  pose proof (sortEvents_Sorted l) as Hs.
  induction Hs as [|a r Hr IH Ha]; [constructor|].
  inversion Hall as [|? ? Hna Hnr]; subst.
  constructor; [now apply IH|].
  destruct Ha as [|b r' Hab]; constructor.
  inversion Hnr as [|? ? Hnb _]; subst.
  unfold in_order in Hab. rewrite sorts_after_compare in Hab.
  now apply not_ltb_leb.
Qed.

Lemma same_year_in_order (y : number) (a b : TimelineEvent) :
  number_eqb (effective_year a) y = true ->
  number_eqb (effective_year b) y = true ->
  in_order compare_events a b.
Proof.
  intros Ha Hb. apply number_eqb_eq in Ha, Hb.
  unfold in_order. rewrite sorts_after_compare, Ha, Hb. apply ltb_irrefl.
Qed.

Lemma sortEvents_with_year (y : number) (l : list TimelineEvent) :
  with_year y (sortEvents l) = with_year y l.
Proof.
  unfold with_year, sortEvents. apply sort_filter.
  intros a b. apply same_year_in_order.
Qed.

(** Two ascending lists that hold, for every year, the same events of
    that year in the same order are the same list. *)
Lemma ascending_determined (l1 l2 : list TimelineEvent) :
  ascending l1 -> ascending l2 ->
  (forall y, with_year y l1 = with_year y l2) ->
  l1 = l2.
Proof.
  revert l2. induction l1 as [|a r1 IH]; intros l2 H1 H2 Hy.
  - destruct l2 as [|b r2]; [reflexivity|].
    specialize (Hy (effective_year b)). unfold with_year in Hy. simpl in Hy.
    rewrite (proj2 (number_eqb_eq _ _) eq_refl) in Hy. discriminate.
  - destruct l2 as [|b r2].
    + specialize (Hy (effective_year a)). unfold with_year in Hy. simpl in Hy.
      rewrite (proj2 (number_eqb_eq _ _) eq_refl) in Hy. discriminate.
    + apply StronglySorted_inv in H1. destruct H1 as [Hr1 Ha].
      apply StronglySorted_inv in H2. destruct H2 as [Hr2 Hb].
      assert (Hin_a : In a (b :: r2)).
      { pose proof (Hy (effective_year a)) as E. unfold with_year in E.
        assert (Hf : In a (filter (fun e => number_eqb (effective_year e) (effective_year a)) (a :: r1))).
        { apply filter_In. split; [now left | now apply number_eqb_eq]. }
        rewrite E in Hf. now apply filter_In in Hf. }
      assert (Hin_b : In b (a :: r1)).
      { pose proof (Hy (effective_year b)) as E. unfold with_year in E.
        assert (Hf : In b (filter (fun e => number_eqb (effective_year e) (effective_year b)) (b :: r2))).
        { apply filter_In. split; [now left | now apply number_eqb_eq]. }
        rewrite <- E in Hf. now apply filter_In in Hf. }
      assert (Hyear : effective_year a = effective_year b).
      { destruct Hin_a as [->|Hin_a]; [reflexivity|].
        destruct Hin_b as [->|Hin_b]; [reflexivity|].
        rewrite Forall_forall in Ha, Hb.
        apply leb_antisym; [apply (Ha b Hin_b) | apply (Hb a Hin_a)]. }
      assert (Hhead : a = b).
      { pose proof (Hy (effective_year a)) as E. unfold with_year in E. simpl in E.
        assert (Hb' : number_eqb (effective_year b) (effective_year a) = true)
          by (apply number_eqb_eq; now symmetry).
        rewrite Hb', (proj2 (number_eqb_eq _ _) eq_refl) in E. now inversion E. }
      subst b. f_equal. apply IH; try assumption.
      intros y. specialize (Hy y). unfold with_year in *. simpl in Hy.
      destruct (number_eqb (effective_year a) y); [now inversion Hy | exact Hy].
Qed.

(** Any stable ascending arrangement of a list of dated events is the
    one the model of the sort returns: on such lists the result does
    not depend on the sorting algorithm of the engine. *)
Lemma stable_sort_unique (l out : list TimelineEvent) :
  forallb dated l = true ->
  ascending out ->
  (forall y, with_year y out = with_year y l) ->
  out = sortEvents l.
Proof.
  intros Hd Ho Hs. apply ascending_determined.
  - exact Ho.
  - now apply sortEvents_ascending.
  - intros y. now rewrite Hs, sortEvents_with_year.
Qed.

(** ** Typed events at run time *)

Lemma year_of_to_value (e : TimelineEvent) :
  year_of (to_value e) = Ok (effective_year e).
Proof.
  destruct e as [y t d dt l]. unfold year_of, effective_year, year_text.
  simpl. destruct y; reflexivity.
Qed.

Lemma compare_values_to_value (a b : TimelineEvent) :
  compare_values (to_value a) (to_value b) = Ok (compare_events a b).
Proof.
  unfold compare_values. rewrite !year_of_to_value. reflexivity.
Qed.

Lemma insert_map {A B : Type} (f : A -> B)
      (cmpA : A -> A -> number) (cmpB : B -> B -> number) (x : A) (l : list A) :
  (forall a b, cmpB (f a) (f b) = cmpA a b) ->
  insert cmpB (f x) (map f l) = map f (insert cmpA x l).
Proof.
  intros H. induction l as [|y r IH]; simpl; [reflexivity|].
  rewrite H. destruct (sorts_after (cmpA x y)); simpl; [now rewrite IH | reflexivity].
Qed.

Lemma sort_map {A B : Type} (f : A -> B)
      (cmpA : A -> A -> number) (cmpB : B -> B -> number) (l : list A) :
  (forall a b, cmpB (f a) (f b) = cmpA a b) ->
  sort cmpB (map f l) = map f (sort cmpA l).
Proof.
  intros H. induction l as [|x r IH]; simpl; [reflexivity|].
  rewrite IH. now apply insert_map.
Qed.

(** On an array of well-typed events the run-time sort does not throw
    and is the typed sorter. *)
Lemma events_sort_typed (l : list TimelineEvent) :
  events_sort (VArray (map to_value l)) = Ok (map to_value (sortEvents l)).
Proof.
  simpl.
  rewrite (sort_throwing_total compare_values
             (fun a b => sub (year_or_NaN a) (year_or_NaN b))).
  - f_equal. apply sort_map. intros a b.
    unfold year_or_NaN. now rewrite !year_of_to_value.
  - intros x y Hx Hy. apply in_map_iff in Hx, Hy.
    destruct Hx as [a [<- _]], Hy as [b [<- _]].
    rewrite compare_values_to_value. unfold year_or_NaN.
    now rewrite !year_of_to_value.
Qed.

(* ================================================================== *)
(** * The Timeline Sorter *)

(** A year text without a digit has the effective year NaN. *)
Lemma undated_year_NaN (s : jsstring) :
  has_digit s = false -> signed_year s = NaN.
Proof.
  intros H. pose proof (signed_year_NaN s) as E. rewrite H in E.
  destruct (signed_year s); try discriminate. reflexivity.
Qed.

(** An event without a digit in its year ties with every event, in
    both directions. *)
Lemma undated_ties (a b : TimelineEvent) :
  dated a = false ->
  in_order compare_events a b /\ in_order compare_events b a.
Proof.
  intros H. unfold in_order. rewrite !sorts_after_compare.
  unfold effective_year at 2 3. rewrite (undated_year_NaN _ H).
  split; [destruct (effective_year b) | destruct (effective_year b)]; reflexivity.
Qed.

(** C1.  The output is not ascending for every input list: with an event
    whose year text has no digit between them, the event of 1392 stays
    before the event of 935, although 935 <= 1392.  (On lists whose year
    texts all have a digit the output is ascending:
    [sortEvents_ascending].) *)
Theorem sortEvents_undated_breaks_order :
  let joseon := event "1392" "Joseon founded" in
  let undated := event "unknown" "Undated" in
  let silla := event "935" "Unified Silla ends" in
  effective_year silla = Num 935 /\
  effective_year joseon = Num 1392 /\
  leb (effective_year silla) (effective_year joseon) = true /\
  sortEvents [joseon; undated; silla] = [joseon; undated; silla].
Proof. vm_compute. repeat split; reflexivity. Qed.

(** C2.  The effective year of the year text "unknown" is NaN, not 0,
    and the event is not placed with the zero-valued entries: between
    the events of 7 and of 0 it keeps all three where they were. *)
Theorem undated_year_is_not_zero :
  let seven := event "7" "Seven" in
  let undated := event "unknown" "Undated" in
  let zero := event "0" "Zero" in
  has_digit (js "unknown") = false /\
  effective_year undated = NaN /\
  effective_year undated <> Num 0 /\
  sortEvents [seven; undated; zero] = [seven; undated; zero].
Proof. vm_compute. repeat split; try reflexivity. discriminate. Qed.

(** C3.  The output of the sorter is a permutation of its input, of the
    same length. *)
Theorem sortEvents_permutation (events : list TimelineEvent) :
  Permutation events (sortEvents events) /\
  List.length (sortEvents events) = List.length events.
Proof.
  pose proof (sortEvents_perm events) as H. split; [exact H|].
  symmetry. now apply Permutation_length.
Qed.

(** C7.  The sort is not stable on every input list: with an event
    whose year text has no digit among them, the events [d] and [e] of
    the same year 935 come out of the engine's sort in the order [e],
    [d].  (On lists whose year texts all have a digit the events of a
    year keep their order: [sortEvents_characterised].) *)
Theorem engine_sort_unstable_around_undated :
  effective_year (event "935" "d") = effective_year (event "935" "e") /\
  with_year (Num 935) unstable_input
  = [event "935" "a"; event "935" "b"; event "935" "c";
     event "935" "d"; event "935" "e"] /\
  V8Sort.sort compare_events unstable_input
  = Some [event "935" "a"; event "935" "b"; event "935" "c"; event "935" "e";
          event "1392" "Joseon founded"; event "unknown" "Undated";
          event "935" "d"].
Proof. vm_compute. repeat split; reflexivity. Qed.


(** C10.  The three events of 1392, BC 108 and 935 come out as BC 108,
    935, 1392, whatever their other fields. *)
Theorem sortEvents_scenario
        (d1 d2 d3 x1 x2 x3 : jsstring) (l1 l2 l3 : option jsstring) :
  let joseon := mkEvent (YearString (js "1392")) (js "Joseon founded") d1 x1 l1 in
  let gojoseon := mkEvent (YearString (js "BC 108")) (js "Gojoseon falls") d2 x2 l2 in
  let silla := mkEvent (YearString (js "935")) (js "Unified Silla ends") d3 x3 l3 in
  sortEvents [joseon; gojoseon; silla] = [gojoseon; silla; joseon].
Proof. reflexivity. Qed.

(** C4, as stated, fails for the digits 0: "BC 0" has the marker and the
    digits of "AD 0" and of "0", and its effective year is not smaller
    than theirs. *)
Lemma bc_zero_not_smaller :
  includes (js "BC 0") BC = true /\
  includes (js "AD 0") BC = false /\
  includes (js "0") BC = false /\
  replace_non_digits (js "BC 0") = replace_non_digits (js "AD 0") /\
  replace_non_digits (js "BC 0") = replace_non_digits (js "0") /\
  ltb (signed_year (js "BC 0")) (signed_year (js "AD 0")) = false /\
  ltb (signed_year (js "BC 0")) (signed_year (js "0")) = false.
Proof. vm_compute. repeat split; reflexivity. Qed.

Lemma decimal_value_parse (s : jsstring) :
  0 < decimal_value (replace_non_digits s) ->
  exists z, 0 < z /\ parseInt (replace_non_digits s) = number_of_Z z.
Proof.
  intros H. unfold parseInt. rewrite leading_digits_all.
  destruct (replace_non_digits s) as [|c r] eqn:E.
  - vm_compute in H. discriminate.
  - exists (decimal_value (c :: r)). split; [exact H | reflexivity].
Qed.

Lemma number_of_Z_pos (z : Z) :
  0 < z -> ltb (neg (number_of_Z z)) (number_of_Z z) = true.
Proof.
  intros H. destruct z as [|p|p]; try lia. simpl.
  pose proof (round_magnitude_pos (Z.pos p) H) as Hv.
  destruct (round_magnitude (Z.pos p)) as [v|]; simpl; [|reflexivity].
  apply Z.ltb_lt. lia.
Qed.

(** C4, amended.  Of two year texts with the same digits, the digits
    denoting a number other than zero, the one that contains "BC" has
    the strictly smaller effective year, and its event is sorted before
    the event of the other, in whichever order the two come in. *)
Theorem bc_marker_strictly_smaller (s t : jsstring) (a b : TimelineEvent)
        (Hs : includes s BC = true)
        (Ht : includes t BC = false)
        (Hdigits : replace_non_digits s = replace_non_digits t)
        (Hnonzero : 0 < decimal_value (replace_non_digits t))
        (Ha : year_text a = s)
        (Hb : year_text b = t) :
  ltb (signed_year s) (signed_year t) = true /\
  sortEvents [b; a] = [a; b] /\
  sortEvents [a; b] = [a; b].
Proof.
  assert (Hlt : ltb (signed_year s) (signed_year t) = true).
  { unfold signed_year. rewrite Hs, Ht, Hdigits.
    destruct (decimal_value_parse t Hnonzero) as [z [Hz ->]].
    now apply number_of_Z_pos. }
  split; [exact Hlt|].
  unfold sortEvents. simpl.
  rewrite !sorts_after_compare. unfold effective_year. rewrite Ha, Hb, Hlt.
  rewrite (ltb_asym _ _ Hlt). split; reflexivity.
Qed.

Lemma bc_marker_strictly_smaller_witness :
  let a := event "BC 108" "earlier" in
  let b := event "AD 108" "later" in
  (includes (js "BC 108") BC = true /\
   includes (js "AD 108") BC = false /\
   replace_non_digits (js "BC 108") = replace_non_digits (js "AD 108") /\
   0 < decimal_value (replace_non_digits (js "AD 108"))) /\
  ltb (signed_year (js "BC 108")) (signed_year (js "AD 108")) = true /\
  sortEvents [b; a] = [a; b] /\
  sortEvents [a; b] = [a; b].
Proof.
  split; [repeat split; reflexivity|].
  apply (bc_marker_strictly_smaller (js "BC 108") (js "AD 108")
           (event "BC 108" "earlier") (event "AD 108" "later"));
    reflexivity.
Defined.

(** "BC 108" against the plain "108". *)
Example bc_108_before_plain_108 :
  ltb (signed_year (js "BC 108")) (signed_year (js "108")) = true /\
  sortEvents [event "108" "later"; event "BC 108" "earlier"]
  = [event "BC 108" "earlier"; event "108" "later"].
Proof. vm_compute. split; reflexivity. Qed.

(* ================================================================== *)
(** * The request cycle *)

Section Cycle.
Variable generateContent : Request -> Result jsstring.
Variable JSON_parse : jsstring -> Result value.

Local Abbreviation fetch := (fetchTimeline generateContent JSON_parse).

(** The cycle ends in one of two states and sends one request. *)
Lemma fetchTimeline_outcome (userPrompt : jsstring) (st : State) :
  fetch userPrompt st =
  (match request_and_decode generateContent JSON_parse userPrompt with
   | Ok sortedEvents => succeeded_state sortedEvents st
   | Throw _ => failed_state st
   end, [build_request userPrompt]).
Proof.
  unfold fetchTimeline.
  destruct (request_and_decode generateContent JSON_parse userPrompt);
    reflexivity.
Qed.

(** X7.  A rejected request ends in the failed state. *)
Lemma fetchTimeline_request_failure (userPrompt : jsstring) (st : State) (e : exception) :
  generateContent (build_request userPrompt) = Throw e ->
  fetch userPrompt st = (failed_state st, [build_request userPrompt]).
Proof.
  intros H. rewrite fetchTimeline_outcome.
  unfold request_and_decode. now rewrite H.
Qed.

(** X8.  A prompt that holds something other than white space is sent,
    as it is typed: the request is built from the prompt, not from its
    trimmed form. *)
Lemma handleSubmit_sends (st : State) :
  forallb is_white_space (prompt st) = false ->
  handleSubmit generateContent JSON_parse st = fetch (prompt st) st.
Proof.
  intros H. unfold handleSubmit.
  destruct (trim (prompt st)) eqn:E; [|reflexivity].
  apply trim_nil_blank in E. congruence.
Qed.

End Cycle.

(** C9.  Submitting a prompt that is empty or holds white space only
    sends no request and leaves the state as it is. *)
Theorem handleSubmit_blank
        (generateContent : Request -> Result jsstring)
        (JSON_parse : jsstring -> Result value)
        (st : State)
        (Hblank : forallb is_white_space (prompt st) = true) :
  handleSubmit generateContent JSON_parse st = (st, []).
Proof.
  unfold handleSubmit. now rewrite (trim_blank _ Hblank).
Qed.

Lemma handleSubmit_blank_witness :
  let st := initial_state (js "  " ++ [9; 10; 160; 8195; 65279]%N) in
  forallb is_white_space (prompt st) = true /\
  handleSubmit (answering (js "[]")) (parse_table [(js "[]", VArray [])]) st
  = (st, []).
Proof.
  split; [reflexivity|].
  apply (handleSubmit_blank (answering (js "[]"))
           (parse_table [(js "[]", VArray [])])
           (initial_state (js "  " ++ [9; 10; 160; 8195; 65279]%N))).
  reflexivity.
Defined.

(** ** Decoding *)

(** An object whose declared properties, where present, are strings has
    a readable year: the comparator does not throw on it. *)
Lemma lenient_item_year (v : value) :
  conforms (TypeOBJECT
              [(js "year", TypeSTRING); (js "title", TypeSTRING);
               (js "description", TypeSTRING); (js "details", TypeSTRING);
               (js "link", TypeSTRING)] []) v = true ->
  year_of v = Ok (year_or_NaN v).
Proof.
  destruct v as [| | | | | |props]; try discriminate.
  intros H. unfold year_or_NaN, year_of, get_year.
  cbn [conforms forallb andb] in H.
  destruct (own_property props (js "year")) as [y|]; [|reflexivity].
  apply andb_true_iff in H. destruct H as [Hy _].
  destruct y; try discriminate. reflexivity.
Qed.

Lemma lenient_array_sorts (items : list value) :
  conforms lenientSchema (VArray items) = true ->
  events_sort (VArray items)
  = Ok (sort (fun a b => sub (year_or_NaN a) (year_or_NaN b)) items).
Proof.
  intros H. simpl in H. rewrite forallb_forall in H.
  unfold events_sort. apply sort_throwing_total.
  intros x y Hx Hy. unfold compare_values.
  rewrite (lenient_item_year x (H x Hx)), (lenient_item_year y (H y Hy)).
  reflexivity.
Qed.

(** C5, as stated, fails: the second object of this response has no
    [year], the response does not conform to the declared schema, and
    the cycle ends in the succeeded state with both objects as the
    events, not in the failed state. *)
Lemma incomplete_response_accepted :
  let text := array_text incomplete_response in
  let decoded := array_value incomplete_response in
  let st := initial_state (js "Korea") in
  let final := fst (fetchTimeline (answering text) (parse_table [(text, decoded)])
                                  (js "Korea") st) in
  conforms responseSchema decoded = false /\
  final = succeeded_state (map object_value incomplete_response) st /\
  final <> failed_state st.
Proof.
  vm_compute. repeat split; try reflexivity. discriminate.
Qed.

(** C5, amended.  Nothing is validated when a response is decoded: a
    text that decodes to an array of objects whose declared properties
    are strings where they are present is accepted whether or not a
    required property is missing.  The cycle ends in the succeeded
    state, the events are the decoded objects in some order, and no
    error is set. *)
Theorem missing_fields_not_rejected
        (generateContent : Request -> Result jsstring)
        (JSON_parse : jsstring -> Result value)
        (userPrompt text : jsstring) (items : list value) (st : State)
        (Hresponse : generateContent (build_request userPrompt) = Ok text)
        (Hparse : JSON_parse (trim text) = Ok (VArray items))
        (Hlenient : conforms lenientSchema (VArray items) = true) :
  exists sortedEvents,
    fetchTimeline generateContent JSON_parse userPrompt st
    = (succeeded_state sortedEvents st, [build_request userPrompt]) /\
    Permutation items sortedEvents /\
    error (succeeded_state sortedEvents st) = None.
Proof.
  exists (sort (fun a b => sub (year_or_NaN a) (year_or_NaN b)) items).
  split; [|split; [apply sort_perm | reflexivity]].
  rewrite fetchTimeline_outcome. unfold request_and_decode.
  rewrite Hresponse. cbn [bind]. rewrite Hparse. cbn [bind].
  rewrite (lenient_array_sorts items Hlenient). reflexivity.
Qed.

Lemma missing_fields_not_rejected_witness :
  let text := array_text incomplete_response in
  let items := map object_value incomplete_response in
  let gc := answering text in
  let jp := parse_table [(text, VArray items)] in
  let st := initial_state (js "Korea") in
  (gc (build_request (js "Korea")) = Ok text /\
   jp (trim text) = Ok (VArray items) /\
   conforms lenientSchema (VArray items) = true /\
   conforms responseSchema (VArray items) = false) /\
  exists sortedEvents,
    fetchTimeline gc jp (js "Korea") st
    = (succeeded_state sortedEvents st, [build_request (js "Korea")]) /\
    Permutation items sortedEvents /\
    error (succeeded_state sortedEvents st) = None.
Proof.
  split; [repeat split; reflexivity|].
  apply (missing_fields_not_rejected
           (answering (array_text incomplete_response))
           (parse_table [(array_text incomplete_response,
                          VArray (map object_value incomplete_response))])
           (js "Korea") (array_text incomplete_response)
           (map object_value incomplete_response)
           (initial_state (js "Korea")));
    reflexivity.
Defined.

(** C6, as stated, fails: the text [[1, 2]] is JSON that does not
    conform to the declared schema, and the cycle ends in the succeeded
    state with the two numbers as the events, no error being set. *)
Lemma nonconforming_array_accepted :
  let text := js "[1, 2]" in
  let decoded := VArray [VNumber (js "1"); VNumber (js "2")] in
  let st := initial_state (js "Korea") in
  let final := fst (fetchTimeline (answering text) (parse_table [(text, decoded)])
                                  (js "Korea") st) in
  conforms responseSchema decoded = false /\
  final = succeeded_state [VNumber (js "1"); VNumber (js "2")] st /\
  error final = None /\
  final <> failed_state st.
Proof.
  vm_compute. repeat split; try reflexivity. discriminate.
Qed.

(** C6, amended.  For every response text that [JSON.parse] rejects, or
    that decodes to a value other than an array, the cycle ends in the
    failed state: no events, not loading, the one error message; the
    function returns that state, no exception leaves it. *)
Theorem undecodable_response_fails
        (generateContent : Request -> Result jsstring)
        (JSON_parse : jsstring -> Result value)
        (userPrompt text : jsstring) (st : State)
        (Hresponse : generateContent (build_request userPrompt) = Ok text)
        (Hdecode : forall items, JSON_parse (trim text) <> Ok (VArray items)) :
  fetchTimeline generateContent JSON_parse userPrompt st
  = (failed_state st, [build_request userPrompt]) /\
  timelineEvents (failed_state st) = [] /\
  error (failed_state st) = Some fetch_error_message /\
  isLoading (failed_state st) = false.
Proof.
  split; [|repeat split].
  rewrite fetchTimeline_outcome. unfold request_and_decode.
  rewrite Hresponse. cbn [bind].
  destruct (JSON_parse (trim text)) as [v|e]; [|reflexivity].
  cbn [bind]. destruct v; try reflexivity.
  exfalso. now apply (Hdecode items).
Qed.

Lemma undecodable_response_fails_witness :
  let gc := answering (js "not json") in
  let jp := parse_table [(js "[]", VArray [])] in
  let st := initial_state (js "Korea") in
  (gc (build_request (js "Korea")) = Ok (js "not json") /\
   jp (trim (js "not json")) = Throw SyntaxError) /\
  fetchTimeline gc jp (js "Korea") st
  = (failed_state st, [build_request (js "Korea")]).
Proof.
  split; [split; reflexivity|].
  apply (undecodable_response_fails
           (answering (js "not json"))
           (parse_table [(js "[]", VArray [])])
           (js "Korea") (js "not json") (initial_state (js "Korea"))).
  - reflexivity.
  - intros items H. vm_compute in H. discriminate.
Defined.

(* ================================================================== *)
(** * Further properties of the sorter *)

Lemma StronglySorted_nth_error {A : Type} (R : A -> A -> Prop) (l : list A) :
  StronglySorted R l ->
  forall (i j : nat) (a b : A),
    (i < j)%nat -> nth_error l i = Some a -> nth_error l j = Some b -> R a b.
Proof.
  induction 1 as [|x r Hr IH Hx]; intros i j a b Hij Ha Hb.
  - destruct i; discriminate.
  - destruct j as [|j]; [lia|]. simpl in Hb.
    destruct i as [|i]; simpl in Ha.
    + inversion Ha; subst. rewrite Forall_forall in Hx.
      apply Hx. eapply nth_error_In; eassumption.
    + apply (IH i j); [lia | assumption | assumption].
Qed.

(** X1.  When every year text has a digit, the output is ordered by
    position: an event at an earlier position has an effective year at
    most that of any event at a later position. *)
Theorem sortEvents_dated_positions
        (events : list TimelineEvent) (i j : nat) (a b : TimelineEvent)
        (Hdated : forallb dated events = true)
        (Hij : (i < j)%nat)
        (Ha : nth_error (sortEvents events) i = Some a)
        (Hb : nth_error (sortEvents events) j = Some b) :
  leb (effective_year a) (effective_year b) = true.
Proof.
  exact (StronglySorted_nth_error year_le _ (sortEvents_ascending events Hdated)
                                  i j a b Hij Ha Hb).
Qed.

Lemma sortEvents_dated_positions_witness :
  let events := [event "1392" "Joseon founded"; event "BC 108" "Gojoseon falls";
                 event "935" "Unified Silla ends"] in
  (forallb dated events = true /\
   (0 < 2)%nat /\
   nth_error (sortEvents events) 0 = Some (event "BC 108" "Gojoseon falls") /\
   nth_error (sortEvents events) 2 = Some (event "1392" "Joseon founded")) /\
  leb (effective_year (event "BC 108" "Gojoseon falls"))
      (effective_year (event "1392" "Joseon founded")) = true.
Proof.
  split; [repeat split; try reflexivity; lia|].
  apply (sortEvents_dated_positions
           [event "1392" "Joseon founded"; event "BC 108" "Gojoseon falls";
            event "935" "Unified Silla ends"] 0 2);
    try reflexivity. lia.
Defined.

(** X2.  On a list whose year texts all have a digit the sorter is the
    stable ascending sort: a list is its output exactly when it is
    ascending and holds, for every year, the events of that year in
    their input order.  So no sorting algorithm of an engine can give
    another result there. *)
Theorem sortEvents_characterised (events out : list TimelineEvent)
        (Hdated : forallb dated events = true) :
  out = sortEvents events <->
  ascending out /\ (forall y, with_year y out = with_year y events).
Proof.
  split.
  - intros ->. split; [now apply sortEvents_ascending|].
    intros y. apply sortEvents_with_year.
  - intros [Hasc Hst]. apply ascending_determined.
    + exact Hasc.
    + now apply sortEvents_ascending.
    + intros y. now rewrite Hst, sortEvents_with_year.
Qed.

Lemma sortEvents_characterised_witness :
  let events := [event "1392" "Joseon founded"; event "BC 108" "Gojoseon falls"] in
  let out := [event "BC 108" "Gojoseon falls"; event "1392" "Joseon founded"] in
  forallb dated events = true /\
  (out = sortEvents events <->
   ascending out /\ (forall y, with_year y out = with_year y events)).
Proof.
  split; [reflexivity|].
  apply (sortEvents_characterised
           [event "1392" "Joseon founded"; event "BC 108" "Gojoseon falls"]
           [event "BC 108" "Gojoseon falls"; event "1392" "Joseon founded"]).
  reflexivity.
Defined.

(** X3.  The effective year of an event is NaN exactly when its year
    text has no digit. *)
Theorem effective_year_NaN_iff (e : TimelineEvent) :
  effective_year e = NaN <-> dated e = false.
Proof.
  unfold effective_year, dated.
  pose proof (signed_year_NaN (year_text e)) as H.
  split; intros E.
  - rewrite E in H. simpl in H. now destruct (has_digit (year_text e)).
  - rewrite E in H. now destruct (signed_year (year_text e)).
Qed.

(** X4.  What the sort reads of the comparator is the order of the two
    effective years, whatever their size: [a] is placed after [b]
    exactly when the year of [b] is smaller than the year of [a], the
    rounding of the difference never turning one order into the other;
    and never both [a] after [b] and [b] after [a]. *)
Theorem comparator_reads_order (a b : TimelineEvent) :
  sorts_after (compare_events a b) = ltb (effective_year b) (effective_year a) /\
  sorts_after (compare_events a b) && sorts_after (compare_events b a) = false.
Proof.
  split; [apply sorts_after_compare|].
  destruct (sorts_after (compare_events a b)) eqn:E; [|reflexivity].
  apply (compare_events_asym a b E).
Qed.

Lemma leb_not_ltb (a b : number) : leb a b = true -> ltb b a = false.
Proof.
  destruct a as [|x| |], b as [|y| |]; simpl; try reflexivity; try discriminate.
  intros H. apply Z.leb_le in H. apply Z.ltb_ge. lia.
Qed.

(** X5.  A list that is already ascending is returned as it is: the
    sorter reorders nothing in a chronological answer. *)
Theorem sortEvents_keeps_ascending (events : list TimelineEvent)
        (Hasc : ascending events) :
  sortEvents events = events.
Proof.
  apply sort_fixpoint. apply StronglySorted_Sorted in Hasc.
  induction Hasc as [|a r Hr IH Ha]; constructor; [exact IH|].
  destruct Ha as [|b r' Hab]; constructor.
  unfold in_order. rewrite sorts_after_compare. now apply leb_not_ltb.
Qed.

Lemma sortEvents_keeps_ascending_witness :
  let events := [event "BC 108" "Gojoseon falls"; event "935" "Unified Silla ends";
                 event "1392" "Joseon founded"] in
  ascending events /\ sortEvents events = events.
Proof.
  assert (H : ascending [event "BC 108" "Gojoseon falls";
                         event "935" "Unified Silla ends";
                         event "1392" "Joseon founded"]).
  { repeat constructor. }
  split; [exact H|].
  exact (sortEvents_keeps_ascending _ H).
Defined.

(** ** The value of a year text *)

Lemma replace_non_digits_digits (s : jsstring) :
  Forall (fun c => is_digit c = true) (replace_non_digits s).
Proof.
  apply Forall_forall. intros c Hc. unfold replace_non_digits in Hc.
  now apply filter_In in Hc.
Qed.

Lemma digit_value_range (c : code_unit) :
  is_digit c = true -> 0 <= digit_value c <= 9.
Proof.
  unfold is_digit, digit_value. intros H.
  apply andb_true_iff in H. destruct H as [H1 H2].
  apply N.leb_le in H1, H2. lia.
Qed.

Lemma decimal_fold_bound (ds : jsstring) :
  Forall (fun c => is_digit c = true) ds ->
  forall acc, 0 <= acc ->
    0 <= fold_left (fun a c => 10 * a + digit_value c) ds acc
    < (acc + 1) * 10 ^ Z.of_nat (List.length ds).
Proof.
  induction 1 as [|c r Hc Hr IH]; intros acc Hacc.
  - simpl. lia.
  - pose proof (digit_value_range c Hc) as Hd.
    cbn [fold_left List.length].
    specialize (IH (10 * acc + digit_value c) ltac:(lia)).
    rewrite Nat2Z.inj_succ, Z.pow_succ_r by lia.
    assert (0 < 10 ^ Z.of_nat (List.length r)) by (apply Z.pow_pos_nonneg; lia).
    nia.
Qed.

Lemma spelled_year_bound (s : jsstring) :
  0 <= spelled_year s < 10 ^ Z.of_nat (List.length (replace_non_digits s)).
Proof.
  unfold spelled_year, decimal_value.
  pose proof (decimal_fold_bound _ (replace_non_digits_digits s) 0 ltac:(lia)) as H.
  lia.
Qed.

Lemma parseInt_dated (s : jsstring) :
  has_digit s = true ->
  parseInt (replace_non_digits s) = number_of_Z (spelled_year s).
Proof.
  intros H. unfold parseInt, spelled_year. rewrite leading_digits_all.
  destruct (replace_non_digits s) as [|c r] eqn:E; [|reflexivity].
  exfalso. unfold has_digit in H. apply existsb_exists in H.
  destruct H as [c [Hin Hc]].
  assert (Hf : In c (replace_non_digits s)) by (apply filter_In; now split).
  rewrite E in Hf. exact Hf.
Qed.

Lemma number_of_Z_exact (z : Z) :
  0 <= z < 2 ^ 53 -> number_of_Z z = Num z.
Proof.
  intros [H0 H1]. destruct z as [|p|p]; [reflexivity| |lia].
  unfold number_of_Z, round_magnitude.
  apply Z.ltb_lt in H1. now rewrite H1.
Qed.

(** X6.  A year text with one to fifteen digits has exactly the year its
    digits spell, read as one decimal number, negated when the text
    contains "BC": nothing is rounded in that range. *)
Theorem short_year_exact (s : jsstring)
        (Hdigit : has_digit s = true)
        (Hshort : (List.length (replace_non_digits s) <= 15)%nat) :
  signed_year s =
  if includes s BC then Num (- spelled_year s) else Num (spelled_year s).
Proof.
  pose proof (spelled_year_bound s) as [H0 H1].
  assert (Hlt : spelled_year s < 2 ^ 53).
  { eapply Z.lt_le_trans; [exact H1|].
    transitivity (10 ^ 15); [|vm_compute; discriminate].
    apply Z.pow_le_mono_r; lia. }
  unfold signed_year. rewrite (parseInt_dated s Hdigit).
  rewrite (number_of_Z_exact _ (conj H0 Hlt)).
  destruct (includes s BC); reflexivity.
Qed.

Lemma short_year_exact_witness :
  (has_digit (js "1592-1598") = true /\
   (List.length (replace_non_digits (js "1592-1598")) <= 15)%nat) /\
  signed_year (js "1592-1598") =
  if includes (js "1592-1598") BC
  then Num (- spelled_year (js "1592-1598"))
  else Num (spelled_year (js "1592-1598")).
Proof.
  split; [split; [reflexivity | vm_compute; lia]|].
  apply (short_year_exact (js "1592-1598")).
  - reflexivity.
  - vm_compute. lia.
Defined.

Lemma number_of_Z_nonneg (z : Z) :
  0 <= z -> leb (Num 0) (number_of_Z z) = true /\
            leb (neg (number_of_Z z)) (Num 0) = true.
Proof.
  intros H. destruct z as [|p|p]; [split; reflexivity| |lia].
  simpl number_of_Z.
  pose proof (round_magnitude_pos (Z.pos p) (Pos2Z.is_pos p)) as Hv.
  destruct (round_magnitude (Z.pos p)) as [v|]; simpl; [|split; reflexivity].
  split; apply Z.leb_le; lia.
Qed.

(** X9.  The marker alone decides the sign: a year text with a digit has
    an effective year that is at most zero when the text contains "BC"
    and at least zero when it does not, however large the digits. *)
Theorem marker_decides_sign (s : jsstring)
        (Hdigit : has_digit s = true) :
  if includes s BC
  then leb (signed_year s) (Num 0) = true
  else leb (Num 0) (signed_year s) = true.
Proof.
  unfold signed_year. rewrite (parseInt_dated s Hdigit).
  pose proof (spelled_year_bound s) as [H0 _].
  destruct (number_of_Z_nonneg (spelled_year s) H0) as [Hpos Hneg].
  destruct (includes s BC); assumption.
Qed.

Lemma marker_decides_sign_witness :
  has_digit (js "BC 108") = true /\
  (if includes (js "BC 108") BC
   then leb (signed_year (js "BC 108")) (Num 0) = true
   else leb (Num 0) (signed_year (js "BC 108")) = true).
Proof.
  split; [reflexivity|].
  apply (marker_decides_sign (js "BC 108")). reflexivity.
Defined.

(* ================================================================== *)
(** * Further properties of the request cycle *)

Lemma fetchTimeline_request_failure_witness :
  let st := initial_state (js "Korea") in
  rejecting (build_request (js "Korea")) = Throw RequestError /\
  fetchTimeline rejecting (parse_table []) (js "Korea") st
  = (failed_state st, [build_request (js "Korea")]).
Proof.
  split; [reflexivity|].
  apply (fetchTimeline_request_failure rejecting (parse_table []) (js "Korea")
           (initial_state (js "Korea")) RequestError).
  reflexivity.
Defined.

Lemma handleSubmit_sends_witness :
  let st := initial_state (js " Joseon kings ") in
  forallb is_white_space (prompt st) = false /\
  handleSubmit rejecting (parse_table []) st
  = fetchTimeline rejecting (parse_table []) (js " Joseon kings ") st.
Proof.
  split; [reflexivity|].
  apply (handleSubmit_sends rejecting (parse_table [])
           (initial_state (js " Joseon kings "))).
  reflexivity.
Defined.

(** X10.  Whatever the service and [JSON.parse] do, a cycle sends one
    request, ends with the loading flag off and the form enabled, leaves
    the prompt and the selection as they were, and never holds an error
    together with events: either no error is set, or the error is the
    one message and the list is empty. *)
Theorem fetchTimeline_invariants
        (generateContent : Request -> Result jsstring)
        (JSON_parse : jsstring -> Result value)
        (userPrompt : jsstring) (st : State) :
  let final := fst (fetchTimeline generateContent JSON_parse userPrompt st) in
  snd (fetchTimeline generateContent JSON_parse userPrompt st)
  = [build_request userPrompt] /\
  isLoading final = false /\
  form_disabled final = false /\
  prompt final = prompt st /\
  selectedEvent final = selectedEvent st /\
  (error final = None \/
   (error final = Some fetch_error_message /\ timelineEvents final = [])).
Proof.
  rewrite fetchTimeline_outcome.
  destruct (request_and_decode generateContent JSON_parse userPrompt);
    simpl; repeat split; auto.
Qed.

(** X11.  A cycle replaces what the previous one left: its outcome does
    not depend on the events, the error or the loading flag it starts
    from. *)
Theorem fetchTimeline_replaces
        (generateContent : Request -> Result jsstring)
        (JSON_parse : jsstring -> Result value)
        (userPrompt : jsstring) (st : State)
        (events : list value) (loading : bool) (err : option jsstring) :
  fetchTimeline generateContent JSON_parse userPrompt
                (mkState (prompt st) events loading err (selectedEvent st))
  = fetchTimeline generateContent JSON_parse userPrompt st.
Proof.
  rewrite !fetchTimeline_outcome.
  destruct (request_and_decode generateContent JSON_parse userPrompt);
    reflexivity.
Qed.

(** X12.  The request determines the prompt: two prompts that differ
    give requests that differ, the prompt being copied into the contents
    between the two fixed parts of the template. *)
Theorem build_request_injective (p q : jsstring)
        (Hdiff : p <> q) :
  build_request p <> build_request q.
Proof.
  intros H. apply Hdiff.
  assert (E : contents (build_request p) = contents (build_request q))
    by now rewrite H.
  unfold build_request in E. cbn [contents] in E.
  apply app_inv_head in E. now apply app_inv_tail in E.
Qed.

Lemma build_request_injective_witness :
  js "Joseon" <> js "Silla" /\
  build_request (js "Joseon") <> build_request (js "Silla").
Proof.
  assert (H : js "Joseon" <> js "Silla") by (vm_compute; discriminate).
  split; [exact H|].
  exact (build_request_injective (js "Joseon") (js "Silla") H).
Defined.

(** ** Decoded arrays *)

Lemma insert_throwing_perm {A : Type} (cmp : A -> A -> Result number)
      (x : A) (l s : list A) :
  insert_throwing cmp x l = Ok s -> Permutation (x :: l) s.
Proof.
  revert s. induction l as [|y r IH]; simpl; intros s H.
  - inversion H. apply Permutation_refl.
  - destruct (cmp x y) as [v|e]; [|discriminate]. cbn [bind] in H.
    destruct (sorts_after v).
    + destruct (insert_throwing cmp x r) as [r'|e]; [|discriminate].
      cbn [bind] in H. inversion H; subst.
      etransitivity; [apply perm_swap|]. apply perm_skip. now apply IH.
    + inversion H. apply Permutation_refl.
Qed.

Lemma sort_throwing_perm {A : Type} (cmp : A -> A -> Result number)
      (l s : list A) :
  sort_throwing cmp l = Ok s -> Permutation l s.
Proof.
  revert s. induction l as [|x r IH]; simpl; intros s H.
  - inversion H. constructor.
  - destruct (sort_throwing cmp r) as [s'|e]; [|discriminate]. cbn [bind] in H.
    etransitivity; [apply perm_skip, (IH s' eq_refl)|].
    now apply insert_throwing_perm in H.
Qed.

(** X13.  When a text decodes to an array, whatever its elements, the
    cycle either fails or ends with a permutation of the elements as the
    events: an accepted response is never shown in part. *)
Theorem accepted_events_permutation
        (generateContent : Request -> Result jsstring)
        (JSON_parse : jsstring -> Result value)
        (userPrompt text : jsstring) (items : list value) (st : State)
        (Hresponse : generateContent (build_request userPrompt) = Ok text)
        (Hparse : JSON_parse (trim text) = Ok (VArray items)) :
  let final := fst (fetchTimeline generateContent JSON_parse userPrompt st) in
  final = failed_state st \/
  exists sortedEvents,
    final = succeeded_state sortedEvents st /\ Permutation items sortedEvents.
Proof.
  rewrite fetchTimeline_outcome. unfold request_and_decode.
  rewrite Hresponse. cbn [bind]. rewrite Hparse. cbn [bind events_sort].
  destruct (sort_throwing compare_values items) as [s|e] eqn:E; cbn [bind fst].
  - right. exists s. split; [reflexivity | now apply sort_throwing_perm in E].
  - now left.
Qed.

Lemma accepted_events_permutation_witness :
  let text := js "[1, 2]" in
  let items := [VNumber (js "1"); VNumber (js "2")] in
  let gc := answering text in
  let jp := parse_table [(text, VArray items)] in
  let st := initial_state (js "Korea") in
  (gc (build_request (js "Korea")) = Ok text /\
   jp (trim text) = Ok (VArray items)) /\
  (fst (fetchTimeline gc jp (js "Korea") st) = failed_state st \/
   exists sortedEvents,
     fst (fetchTimeline gc jp (js "Korea") st) = succeeded_state sortedEvents st /\
     Permutation items sortedEvents).
Proof.
  split; [split; reflexivity|].
  apply (accepted_events_permutation
           (answering (js "[1, 2]"))
           (parse_table [(js "[1, 2]", VArray [VNumber (js "1"); VNumber (js "2")])])
           (js "Korea") (js "[1, 2]") [VNumber (js "1"); VNumber (js "2")]
           (initial_state (js "Korea")));
    reflexivity.
Defined.

(** X14.  An array of fewer than two elements is accepted as it is,
    whatever its element: the comparator is not called, so even [[null]]
    becomes the list of events. *)
Theorem short_array_accepted
        (generateContent : Request -> Result jsstring)
        (JSON_parse : jsstring -> Result value)
        (userPrompt text : jsstring) (items : list value) (st : State)
        (Hresponse : generateContent (build_request userPrompt) = Ok text)
        (Hparse : JSON_parse (trim text) = Ok (VArray items))
        (Hshort : (List.length items <= 1)%nat) :
  fetchTimeline generateContent JSON_parse userPrompt st
  = (succeeded_state items st, [build_request userPrompt]).
Proof.
  rewrite fetchTimeline_outcome. unfold request_and_decode.
  rewrite Hresponse. cbn [bind]. rewrite Hparse. cbn [bind].
  destruct items as [|v [|w r]]; [reflexivity | reflexivity | simpl in Hshort; lia].
Qed.

Lemma short_array_accepted_witness :
  let text := js " [null] " in
  let gc := answering text in
  let jp := parse_table [(js "[null]", VArray [VNull])] in
  let st := initial_state (js "Korea") in
  (gc (build_request (js "Korea")) = Ok text /\
   jp (trim text) = Ok (VArray [VNull]) /\
   (List.length [VNull] <= 1)%nat) /\
  fetchTimeline gc jp (js "Korea") st
  = (succeeded_state [VNull] st, [build_request (js "Korea")]).
Proof.
  split; [repeat split; try reflexivity; simpl; lia|].
  apply (short_array_accepted
           (answering (js " [null] "))
           (parse_table [(js "[null]", VArray [VNull])])
           (js "Korea") (js " [null] ") [VNull] (initial_state (js "Korea")));
    reflexivity.
Defined.

Lemma compare_values_null_r (x : value) :
  exists e, compare_values x VNull = Throw e.
Proof.
  unfold compare_values. destruct (year_of x) as [n|e]; cbn; eexists; reflexivity.
Qed.

Lemma sort_throwing_null (l : list value) :
  In VNull l -> (2 <= List.length l)%nat ->
  exists e, sort_throwing compare_values l = Throw e.
Proof.
  induction l as [|x r IH]; intros Hin Hlen; [destruct Hin|].
  cbn [sort_throwing].
  destruct (sort_throwing compare_values r) as [s|e] eqn:E;
    [|eexists; reflexivity].
  cbn [bind]. pose proof (sort_throwing_perm _ _ _ E) as Hperm.
  destruct r as [|y r']; [simpl in Hlen; lia|].
  destruct s as [|z s'];
    [apply Permutation_sym, Permutation_nil in Hperm; discriminate|].
  cbn [insert_throwing].
  destruct Hin as [->|Hin]; [eexists; reflexivity|].
  destruct r' as [|y' r''].
  - destruct Hin as [->|[]].
    apply Permutation_length_1_inv in Hperm. inversion Hperm; subst.
    destruct (compare_values_null_r x) as [e' He']. rewrite He'.
    eexists; reflexivity.
  - destruct (IH Hin ltac:(simpl; lia)) as [e' He']. discriminate.
Qed.

(** X15.  An array of two or more elements one of which is [null] is
    rejected: reading [year] of [null] throws inside the comparator, and
    the cycle ends in the failed state. *)
Theorem null_element_fails
        (generateContent : Request -> Result jsstring)
        (JSON_parse : jsstring -> Result value)
        (userPrompt text : jsstring) (items : list value) (st : State)
        (Hresponse : generateContent (build_request userPrompt) = Ok text)
        (Hparse : JSON_parse (trim text) = Ok (VArray items))
        (Hnull : In VNull items)
        (Hlong : (2 <= List.length items)%nat) :
  fetchTimeline generateContent JSON_parse userPrompt st
  = (failed_state st, [build_request userPrompt]).
Proof.
  rewrite fetchTimeline_outcome. unfold request_and_decode.
  rewrite Hresponse. cbn [bind]. rewrite Hparse. cbn [bind events_sort].
  destruct (sort_throwing_null items Hnull Hlong) as [e He].
  now rewrite He.
Qed.

Lemma null_element_fails_witness :
  let text := js "[{}, null]" in
  let items := [VObject []; VNull] in
  let gc := answering text in
  let jp := parse_table [(text, VArray items)] in
  let st := initial_state (js "Korea") in
  (gc (build_request (js "Korea")) = Ok text /\
   jp (trim text) = Ok (VArray items) /\
   In VNull items /\
   (2 <= List.length items)%nat) /\
  fetchTimeline gc jp (js "Korea") st
  = (failed_state st, [build_request (js "Korea")]).
Proof.
  split; [repeat split; try reflexivity; simpl; auto|].
  apply (null_element_fails
           (answering (js "[{}, null]"))
           (parse_table [(js "[{}, null]", VArray [VObject []; VNull])])
           (js "Korea") (js "[{}, null]") [VObject []; VNull]
           (initial_state (js "Korea")));
    try reflexivity.
  simpl. auto.
Defined.

Lemma conforms_lenient (v : value) :
  conforms responseSchema v = true -> conforms lenientSchema v = true.
Proof.
  destruct v as [| | | | |items|]; try discriminate.
  cbn [conforms responseSchema lenientSchema].
  intros H. rewrite forallb_forall in H |- *. intros x Hx.
  specialize (H x Hx). destruct x as [| | | | | |props]; try discriminate.
  cbn [conforms] in H |- *. apply andb_true_iff in H. destruct H as [_ H].
  cbn [forallb andb]. exact H.
Qed.

(** X16.  A response that conforms to the declared schema is never
    rejected: the cycle ends in the succeeded state with the decoded
    objects, in some order, as the events. *)
Theorem conforming_response_accepted
        (generateContent : Request -> Result jsstring)
        (JSON_parse : jsstring -> Result value)
        (userPrompt text : jsstring) (decoded : value) (st : State)
        (Hresponse : generateContent (build_request userPrompt) = Ok text)
        (Hparse : JSON_parse (trim text) = Ok decoded)
        (Hconforms : conforms responseSchema decoded = true) :
  exists items sortedEvents,
    decoded = VArray items /\
    fetchTimeline generateContent JSON_parse userPrompt st
    = (succeeded_state sortedEvents st, [build_request userPrompt]) /\
    Permutation items sortedEvents.
Proof.
  pose proof (conforms_lenient decoded Hconforms) as Hl.
  destruct decoded as [| | | | |items|]; try discriminate.
  exists items, (sort (fun a b => sub (year_or_NaN a) (year_or_NaN b)) items).
  split; [reflexivity|]. split; [|apply sort_perm].
  rewrite fetchTimeline_outcome. unfold request_and_decode.
  rewrite Hresponse. cbn [bind]. rewrite Hparse. cbn [bind].
  now rewrite (lenient_array_sorts items Hl).
Qed.

Lemma conforming_response_accepted_witness :
  let text := array_text complete_response in
  let decoded := array_value complete_response in
  let gc := answering text in
  let jp := parse_table [(text, decoded)] in
  let st := initial_state (js "Korea") in
  (gc (build_request (js "Korea")) = Ok text /\
   jp (trim text) = Ok decoded /\
   conforms responseSchema decoded = true) /\
  exists items sortedEvents,
    decoded = VArray items /\
    fetchTimeline gc jp (js "Korea") st
    = (succeeded_state sortedEvents st, [build_request (js "Korea")]) /\
    Permutation items sortedEvents.
Proof.
  split; [repeat split; reflexivity|].
  apply (conforming_response_accepted
           (answering (array_text complete_response))
           (parse_table [(array_text complete_response,
                          array_value complete_response)])
           (js "Korea") (array_text complete_response)
           (array_value complete_response) (initial_state (js "Korea")));
    reflexivity.
Defined.

(** X17.  When the text decodes to the objects of well-typed events
    whose year texts all have a digit, the cycle ends with exactly the
    output of the Timeline Sorter as the events: the comparator does not
    throw on them at run time and orders them as it does the typed
    events. *)
Theorem typed_response_sorted
        (generateContent : Request -> Result jsstring)
        (JSON_parse : jsstring -> Result value)
        (userPrompt text : jsstring) (events : list TimelineEvent) (st : State)
        (Hresponse : generateContent (build_request userPrompt) = Ok text)
        (Hparse : JSON_parse (trim text) = Ok (VArray (map to_value events)))
        (Hdated : forallb dated events = true) :
  fetchTimeline generateContent JSON_parse userPrompt st
  = (succeeded_state (map to_value (sortEvents events)) st,
     [build_request userPrompt]) /\
  ascending (sortEvents events).
Proof.
  split; [|now apply sortEvents_ascending].
  rewrite fetchTimeline_outcome. unfold request_and_decode.
  rewrite Hresponse. cbn [bind]. rewrite Hparse. cbn [bind].
  now rewrite events_sort_typed.
Qed.

Lemma typed_response_sorted_witness :
  let events := [event "1392" "Joseon founded"; event "BC 108" "Gojoseon falls"] in
  let text := js "two events" in
  let gc := answering text in
  let jp := parse_table [(text, VArray (map to_value events))] in
  let st := initial_state (js "Korea") in
  (gc (build_request (js "Korea")) = Ok text /\
   jp (trim text) = Ok (VArray (map to_value events)) /\
   forallb dated events = true) /\
  fetchTimeline gc jp (js "Korea") st
  = (succeeded_state (map to_value (sortEvents events)) st,
     [build_request (js "Korea")]).
Proof.
  split; [repeat split; reflexivity|].
  apply (typed_response_sorted
           (answering (js "two events"))
           (parse_table
              [(js "two events",
                VArray (map to_value [event "1392" "Joseon founded";
                                      event "BC 108" "Gojoseon falls"]))])
           (js "Korea") (js "two events")
           [event "1392" "Joseon founded"; event "BC 108" "Gojoseon falls"]
           (initial_state (js "Korea")));
    reflexivity.
Defined.

(** X18.  The main area after a cycle: never the loader; the error
    message when the cycle failed; the input hint of the start screen
    when the decoded array is empty; otherwise the items of the stored
    events, unless one of them cannot be rendered (it is [null], or has
    an object where a text is expected), in which case the render
    throws. *)
Theorem main_content_after_cycle
        (generateContent : Request -> Result jsstring)
        (JSON_parse : jsstring -> Result value)
        (userPrompt : jsstring) (st : State) :
  let final := fst (fetchTimeline generateContent JSON_parse userPrompt st) in
  main_content final <> Shows Loader /\
  main_content final =
  match request_and_decode generateContent JSON_parse userPrompt with
  | Throw _ => Shows (ErrorMessage fetch_error_message)
  | Ok [] => Shows Placeholder
  | Ok (_ :: _) =>
      if forallb item_renders (timelineEvents final)
      then Shows (TimelineItems (timelineEvents final))
      else RenderThrows
  end.
Proof.
  rewrite fetchTimeline_outcome.
  destruct (request_and_decode generateContent JSON_parse userPrompt) as [[|e r]|x];
    cbn [fst]; unfold main_content; cbn -[item_renders forallb];
    split; try reflexivity; try discriminate.
  destruct (forallb item_renders (e :: r)); discriminate.
Qed.

(** X19.  Every typed event whose year is a string is, as a run-time
    object, of the declared schema, with or without a link. *)
Theorem typed_events_conform (events : list TimelineEvent)
        (Hstring : forallb string_year events = true) :
  conforms responseSchema (VArray (map to_value events)) = true.
Proof.
  cbn [conforms responseSchema]. rewrite forallb_forall. intros v Hv.
  apply in_map_iff in Hv. destruct Hv as [e [<- He]].
  rewrite forallb_forall in Hstring. specialize (Hstring e He).
  destruct e as [y t d x l]. unfold string_year in Hstring. cbn [year] in Hstring.
  destruct y; [discriminate|]. destruct l; reflexivity.
Qed.

Lemma typed_events_conform_witness :
  let events := [event "1392" "Joseon founded";
                 mkEvent (YearString (js "BC 108")) (js "Gojoseon falls") [] []
                         (Some (js "https://example.org"))] in
  forallb string_year events = true /\
  conforms responseSchema (VArray (map to_value events)) = true.
Proof.
  split; [reflexivity|].
  apply (typed_events_conform
           [event "1392" "Joseon founded";
            mkEvent (YearString (js "BC 108")) (js "Gojoseon falls") [] []
                    (Some (js "https://example.org"))]).
  reflexivity.
Defined.

(* ================================================================== *)
(** * The engine's sort and the stable sort *)

Lemma number_of_Z_negative (z : Z) :
  V8Sort.is_negative (number_of_Z z) = (z <? 0).
Proof.
  destruct z as [|p|p]; simpl number_of_Z.
  - reflexivity.
  - pose proof (round_magnitude_pos (Z.pos p) (Pos2Z.is_pos p)) as H.
    destruct (round_magnitude (Z.pos p)) as [v|]; [|reflexivity].
    unfold V8Sort.is_negative; simpl. apply Z.ltb_ge. lia.
  - pose proof (round_magnitude_pos (Z.pos p) (Pos2Z.is_pos p)) as H.
    destruct (round_magnitude (Z.pos p)) as [v|]; [|reflexivity].
    unfold V8Sort.is_negative; simpl. apply Z.ltb_lt. lia.
Qed.

Lemma is_negative_sub (a b : number) :
  V8Sort.is_negative (sub a b) = ltb a b.
Proof.
  destruct a as [|x| |], b as [|y| |]; try reflexivity.
  simpl sub. rewrite number_of_Z_negative. simpl.
  destruct (x - y <? 0) eqn:H1, (x <? y) eqn:H2; try reflexivity;
    [apply Z.ltb_lt in H1; apply Z.ltb_ge in H2 | apply Z.ltb_ge in H1; apply Z.ltb_lt in H2]; lia.
Qed.

Lemma is_negative_compare (a b : TimelineEvent) :
  V8Sort.is_negative (compare_events a b)
  = ltb (effective_year a) (effective_year b).
Proof. unfold compare_events. apply is_negative_sub. Qed.

Lemma ltb_leb_trans (a b c : number) :
  ltb a b = true -> leb b c = true -> ltb a c = true.
Proof.
  destruct a as [|x| |], b as [|y| |], c as [|z| |]; simpl;
    try reflexivity; try discriminate.
  intros H1 H2. apply Z.ltb_lt in H1. apply Z.leb_le in H2. apply Z.ltb_lt. lia.
Qed.

Lemma ltb_trans (a b c : number) :
  ltb a b = true -> ltb b c = true -> ltb a c = true.
Proof.
  destruct a as [|x| |], b as [|y| |], c as [|z| |]; simpl;
    try reflexivity; try discriminate.
  intros H1 H2. apply Z.ltb_lt in H1, H2. apply Z.ltb_lt. lia.
Qed.

Lemma ltb_leb (a b : number) : ltb a b = true -> leb a b = true.
Proof.
  destruct a as [|x| |], b as [|y| |]; simpl; try reflexivity; try discriminate.
  intros H. apply Z.ltb_lt in H. apply Z.leb_le. lia.
Qed.

Lemma not_ltb_above (p m x : number) :
  ltb p m = false -> leb x m = true -> ltb p x = false.
Proof.
  intros H1 H2. destruct (ltb p x) eqn:E; [|reflexivity].
  rewrite (ltb_leb_trans _ _ _ E H2) in H1. discriminate.
Qed.

Lemma StronglySorted_app_intro {A : Type} (R : A -> A -> Prop) (l1 l2 : list A) :
  StronglySorted R l1 -> StronglySorted R l2 ->
  (forall x y, In x l1 -> In y l2 -> R x y) ->
  StronglySorted R (l1 ++ l2).
Proof.
  induction 1 as [|a r Hr IH Ha]; intros H2 Hc; simpl; [exact H2|].
  constructor.
  - apply IH; [exact H2|]. intros x y Hx Hy. apply Hc; [now right | exact Hy].
  - apply Forall_app. split; [exact Ha|].
    apply Forall_forall. intros y Hy. apply Hc; [now left | exact Hy].
Qed.

Lemma StronglySorted_app_inv {A : Type} (R : A -> A -> Prop) (l1 l2 : list A) :
  StronglySorted R (l1 ++ l2) ->
  StronglySorted R l1 /\ StronglySorted R l2 /\
  (forall x y, In x l1 -> In y l2 -> R x y).
Proof.
  induction l1 as [|a r IH]; simpl; intros H.
  - repeat split; [constructor | exact H | intros x y []].
  - apply StronglySorted_inv in H. destruct H as [Hs Ha].
    destruct (IH Hs) as [H1 [H2 H3]].
    apply Forall_app in Ha. destruct Ha as [Har Hal].
    repeat split.
    + now constructor.
    + exact H2.
    + intros x y [<-|Hx] Hy.
      * rewrite Forall_forall in Hal. now apply Hal.
      * now apply H3.
Qed.

Lemma StronglySorted_rev {A : Type} (R : A -> A -> Prop) (l : list A) :
  StronglySorted R l -> StronglySorted (fun a b => R b a) (rev l).
Proof.
  induction 1 as [|a r Hr IH Ha]; simpl; [constructor|].
  apply StronglySorted_app_intro; [exact IH | repeat constructor |].
  intros x y Hx [<-|[]]. apply in_rev in Hx.
  rewrite Forall_forall in Ha. now apply Ha.
Qed.

Lemma StronglySorted_weaken {A : Type} (R S : A -> A -> Prop) (l : list A) :
  (forall a b, R a b -> S a b) -> StronglySorted R l -> StronglySorted S l.
Proof.
  intros H. induction 1 as [|a r Hr IH Ha]; constructor; [exact IH|].
  eapply Forall_impl; [|exact Ha]. intros b. apply H.
Qed.

Lemma dated_year_known (l : list TimelineEvent) :
  forallb dated l = true -> Forall year_known l.
Proof.
  intros H. apply Forall_forall. intros e He.
  rewrite forallb_forall in H. specialize (H e He).
  unfold year_known, effective_year. rewrite signed_year_NaN.
  unfold dated in H. now rewrite H.
Qed.

(** ** The first run *)

Lemma run_tail_length (d : bool) (prev : TimelineEvent) (rest : list TimelineEvent) :
  (V8Sort.run_tail compare_events d prev rest <= List.length rest)%nat.
Proof.
  revert prev. induction rest as [|c r IH]; intros prev; simpl; [lia|].
  destruct (if d then _ else _); [lia|]. specialize (IH c). lia.
Qed.

Lemma run_tail_ascending (prev : TimelineEvent) (rest : list TimelineEvent) :
  Forall year_known (prev :: rest) ->
  Sorted year_le
         (prev :: firstn (V8Sort.run_tail compare_events false prev rest) rest).
Proof.
  revert prev. induction rest as [|c r IH]; intros prev Hk; simpl.
  - repeat constructor.
  - rewrite is_negative_compare.
    destruct (ltb (effective_year c) (effective_year prev)) eqn:E.
    + repeat constructor.
    + inversion Hk as [|? ? Hp Hr]; subst. inversion Hr as [|? ? Hc Hr']; subst.
      simpl. constructor; [apply IH; now constructor|].
      constructor. unfold year_le. now apply not_ltb_leb.
Qed.

Lemma run_tail_descending (prev : TimelineEvent) (rest : list TimelineEvent) :
  Sorted year_gt
         (prev :: firstn (V8Sort.run_tail compare_events true prev rest) rest).
Proof.
  revert prev. induction rest as [|c r IH]; intros prev; simpl.
  - repeat constructor.
  - rewrite is_negative_compare.
    destruct (ltb (effective_year c) (effective_year prev)) eqn:E; simpl.
    + constructor; [apply IH|]. constructor. exact E.
    + repeat constructor.
Qed.

Lemma year_gt_trans : Relations_1.Transitive year_gt.
Proof. intros a b c H1 H2. unfold year_gt in *. eapply ltb_trans; eassumption. Qed.

(** In a strictly descending list no two events have the same year. *)
Lemma descending_with_year (y : number) (p : list TimelineEvent) :
  StronglySorted year_gt p -> rev (with_year y p) = with_year y p.
Proof.
  induction 1 as [|a r Hr IH Ha]; [reflexivity|].
  unfold with_year in *. simpl.
  destruct (number_eqb (effective_year a) y) eqn:E; [|exact IH].
  assert (Hnone : filter (fun e => number_eqb (effective_year e) y) r = []).
  { clear IH Hr. induction Ha as [|b r Hb _ IHa]; simpl; [reflexivity|].
    destruct (number_eqb (effective_year b) y) eqn:Eb; [|exact IHa].
    apply number_eqb_eq in E, Eb. unfold year_gt in Hb.
    rewrite E, Eb, ltb_irrefl in Hb. discriminate. }
  rewrite Hnone. reflexivity.
Qed.

Lemma CountAndMakeRun_spec (work : list TimelineEvent) :
  Forall year_known work ->
  let (work', runLength) := V8Sort.CountAndMakeRun compare_events work in
  (runLength <= List.length work)%nat /\
  List.length work' = List.length work /\
  Forall year_known work' /\
  ascending (firstn runLength work') /\
  (forall y, with_year y work' = with_year y work).
Proof.
  intros Hk. destruct work as [|hi [|lo rest]].
  - simpl. repeat split; auto. constructor.
  - simpl. repeat split; auto. repeat constructor.
  - cbn [V8Sort.CountAndMakeRun].
    rewrite is_negative_compare.
    set (d := ltb (effective_year lo) (effective_year hi)).
    set (t := V8Sort.run_tail compare_events d lo rest).
    assert (Ht : (t <= List.length rest)%nat) by apply run_tail_length.
    assert (Hfirst : firstn (2 + t) (hi :: lo :: rest) = hi :: lo :: firstn t rest)
      by reflexivity.
    inversion Hk as [|? ? Hhi Hk']; subst. inversion Hk' as [|? ? Hlo Hrest]; subst.
    destruct d eqn:Ed.
    + (* a strictly descending run, reversed *)
      assert (Hdesc : StronglySorted year_gt (firstn (2 + t) (hi :: lo :: rest))).
      { rewrite Hfirst. apply Sorted_StronglySorted; [exact year_gt_trans|].
        constructor; [apply run_tail_descending|]. constructor. exact Ed. }
      assert (Hlen : List.length (rev (firstn (2 + t) (hi :: lo :: rest))) = (2 + t)%nat).
      { rewrite length_rev, length_firstn. simpl List.length. lia. }
      repeat split.
      * simpl List.length. lia.
      * rewrite length_app, length_rev, <- length_app, firstn_skipn. reflexivity.
      * apply Forall_app. split.
        -- apply Forall_rev. rewrite <- (firstn_skipn (2 + t)) in Hk.
           now apply Forall_app in Hk.
        -- rewrite <- (firstn_skipn (2 + t)) in Hk. now apply Forall_app in Hk.
      * rewrite firstn_app, Hlen, Nat.sub_diag, firstn_O, app_nil_r.
        rewrite <- Hlen at 1. rewrite firstn_all.
        apply (StronglySorted_weaken (fun a b => year_gt b a)).
        -- intros a b H. unfold year_gt in H. unfold year_le. now apply ltb_leb.
        -- now apply StronglySorted_rev.
      * intros y. unfold with_year. rewrite filter_app, filter_rev.
        fold (with_year y (firstn (2 + t) (hi :: lo :: rest))).
        rewrite (descending_with_year y _ Hdesc).
        unfold with_year. rewrite <- filter_app, firstn_skipn. reflexivity.
    + (* an ascending run, left as it is *)
      repeat split.
      * simpl List.length. lia.
      * exact Hk.
      * rewrite Hfirst. apply Sorted_StronglySorted; [exact year_le_trans|].
        constructor; [apply run_tail_ascending; now constructor|].
        constructor. unfold year_le. now apply not_ltb_leb.
Qed.

(** ** Binary insertion *)

Lemma insertion_point_spec (pivot : TimelineEvent) (work : list TimelineEvent)
      (start : nat) :
  (start <= List.length work)%nat ->
  (forall i j a b, (i < j)%nat -> (j < start)%nat ->
                   nth_error work i = Some a -> nth_error work j = Some b ->
                   year_le a b) ->
  forall (fuel left right : nat),
    (right - left < fuel)%nat -> (left <= right)%nat -> (right <= start)%nat ->
    (forall i x, (i < left)%nat -> nth_error work i = Some x ->
                 ltb (effective_year pivot) (effective_year x) = false) ->
    (forall i x, (right <= i)%nat -> (i < start)%nat -> nth_error work i = Some x ->
                 ltb (effective_year pivot) (effective_year x) = true) ->
    let p := V8Sort.insertion_point compare_events fuel work pivot left right in
    (p <= start)%nat /\
    (forall i x, (i < p)%nat -> nth_error work i = Some x ->
                 ltb (effective_year pivot) (effective_year x) = false) /\
    (forall i x, (p <= i)%nat -> (i < start)%nat -> nth_error work i = Some x ->
                 ltb (effective_year pivot) (effective_year x) = true).
Proof.
  intros Hstart Hsorted.
  induction fuel as [|fuel IH]; intros left right Hfuel Hlr Hrs Hbelow Habove;
    [lia|].
  cbn [V8Sort.insertion_point].
  destruct (left <? right)%nat eqn:Elr.
  - apply Nat.ltb_lt in Elr.
    assert (Hhalf : (Nat.div2 (right - left) < right - left)%nat)
      by (apply Nat.lt_div2; lia).
    remember (Nat.div2 (right - left)) as half eqn:Ehalf. clear Ehalf.
    set (mid := (left + half)%nat).
    assert (Hmid : (left <= mid < right)%nat) by (unfold mid; lia).
    destruct (nth_error work mid) as [m|] eqn:Em.
    + rewrite is_negative_compare.
      destruct (ltb (effective_year pivot) (effective_year m)) eqn:Epm.
      * apply IH; try lia; [exact Hbelow|].
        intros i x Hi1 Hi2 Hx.
        destruct (Nat.eq_dec i mid) as [->|Hne].
        -- rewrite Em in Hx. inversion Hx; subst. exact Epm.
        -- apply (ltb_leb_trans _ _ _ Epm).
           apply (Hsorted mid i m x); try assumption; lia.
      * apply IH; try lia; [|].
        -- intros i x Hi Hx.
           destruct (Nat.eq_dec i mid) as [->|Hne].
           ++ rewrite Em in Hx. inversion Hx; subst. exact Epm.
           ++ apply (not_ltb_above _ _ _ Epm).
              apply (Hsorted i mid x m); try assumption; lia.
        -- intros i x Hi1 Hi2 Hx. apply (Habove i x); try assumption; lia.
    + exfalso. apply nth_error_None in Em. lia.
  - apply Nat.ltb_ge in Elr. assert (left = right) by lia. subst right.
    repeat split; [lia | exact Hbelow | exact Habove].
Qed.

Lemma Forall_firstn_index {A : Type} (P : A -> Prop) (l : list A) (n : nat) :
  (forall i x, (i < n)%nat -> nth_error l i = Some x -> P x) ->
  Forall P (firstn n l).
Proof.
  intros H. apply Forall_forall. intros x Hx.
  apply In_nth_error in Hx. destruct Hx as [i Hi].
  rewrite nth_error_firstn in Hi.
  destruct (i <? n)%nat eqn:E; [|discriminate].
  apply Nat.ltb_lt in E. now apply (H i).
Qed.

Lemma Forall_skipn_index {A : Type} (P : A -> Prop) (l : list A) (n : nat) :
  (forall i x, (n <= i)%nat -> (i < List.length l)%nat ->
               nth_error l i = Some x -> P x) ->
  Forall P (skipn n l).
Proof.
  intros H. apply Forall_forall. intros x Hx.
  apply In_nth_error in Hx. destruct Hx as [i Hi].
  rewrite nth_error_skipn in Hi.
  apply (H (n + i)%nat); [lia | | exact Hi].
  apply nth_error_Some. congruence.
Qed.

Lemma with_year_above (y : number) (pivot : TimelineEvent) (l : list TimelineEvent) :
  number_eqb (effective_year pivot) y = true ->
  Forall (fun x => ltb (effective_year pivot) (effective_year x) = true) l ->
  with_year y l = [].
Proof.
  intros E. induction 1 as [|b r Hb _ IH]; [reflexivity|].
  unfold with_year in *. simpl.
  destruct (number_eqb (effective_year b) y) eqn:Eb; [|exact IH].
  apply number_eqb_eq in E, Eb. rewrite E, Eb, ltb_irrefl in Hb. discriminate.
Qed.

(** Putting the pivot at its insertion point keeps the run ascending and
    the events of each year in their order. *)
Lemma insertion_step (l1 l2 : list TimelineEvent) (pivot : TimelineEvent) :
  ascending l1 -> Forall year_known l1 -> year_known pivot ->
  let work := l1 ++ pivot :: l2 in
  let start := List.length l1 in
  let left := V8Sort.insertion_point compare_events (S start) work pivot 0 start in
  exists before after,
    l1 = before ++ after /\
    V8Sort.move_to work start left pivot = (before ++ pivot :: after) ++ l2 /\
    ascending (before ++ pivot :: after) /\
    (forall y, with_year y (before ++ pivot :: after) = with_year y (l1 ++ [pivot])).
Proof.
  intros Hasc Hk Hp work start left.
  assert (Hspec := insertion_point_spec pivot work start).
  assert (Hlen : (start <= List.length work)%nat)
    by (unfold work, start; rewrite length_app; lia).
  assert (Hprefix : forall i x, (i < start)%nat ->
                               nth_error work i = Some x -> nth_error l1 i = Some x).
  { intros i x Hi Hx. unfold work in Hx. now rewrite nth_error_app1 in Hx. }
  specialize (Hspec Hlen).
  assert (Hsorted : forall i j a b, (i < j)%nat -> (j < start)%nat ->
                      nth_error work i = Some a -> nth_error work j = Some b ->
                      year_le a b).
  { intros i j a b Hij Hj Ha Hb.
    apply (StronglySorted_nth_error year_le l1 Hasc i j a b Hij);
      apply Hprefix; try assumption; lia. }
  specialize (Hspec Hsorted (S start) 0%nat start ltac:(lia) ltac:(lia) ltac:(lia)).
  destruct Hspec as [Hle [Hbelow Habove]].
  { intros i x Hi. lia. }
  { intros i x Hi1 Hi2. lia. }
  fold left in Hle, Hbelow, Habove.
  exists (firstn left l1), (skipn left l1).
  assert (Hb : Forall (fun x => ltb (effective_year pivot) (effective_year x) = false)
                      (firstn left l1)).
  { apply Forall_firstn_index. intros i x Hi Hx. apply (Hbelow i x Hi).
    unfold work. rewrite nth_error_app1; [exact Hx|].
    apply nth_error_Some. congruence. }
  assert (Ha : Forall (fun x => ltb (effective_year pivot) (effective_year x) = true)
                      (skipn left l1)).
  { apply Forall_skipn_index. intros i x Hi1 Hi2 Hx. apply (Habove i x Hi1 Hi2).
    unfold work. now rewrite nth_error_app1. }
  assert (Hsplit : l1 = firstn left l1 ++ skipn left l1)
    by (symmetry; apply firstn_skipn).
  split; [exact Hsplit|].
  split.
  { unfold V8Sort.move_to, work.
    rewrite firstn_app. replace (left - List.length l1)%nat with 0%nat by (unfold start in Hle; lia).
    rewrite firstn_O, app_nil_r.
    rewrite firstn_app, Nat.sub_diag, firstn_O, app_nil_r.
    fold start. unfold start at 1. rewrite firstn_all.
    replace (S start) with (List.length (l1 ++ [pivot]))
      by (rewrite length_app; simpl; unfold start; lia).
    replace (l1 ++ pivot :: l2) with ((l1 ++ [pivot]) ++ l2)
      by (rewrite <- app_assoc; reflexivity).
    rewrite skipn_app, Nat.sub_diag, skipn_all, skipn_O. simpl.
    rewrite <- app_assoc. reflexivity. }
  rewrite Hsplit in Hasc. apply StronglySorted_app_inv in Hasc.
  destruct Hasc as [Hs1 [Hs2 Hcross]].
  rewrite Hsplit in Hk. apply Forall_app in Hk. destruct Hk as [Hk1 Hk2].
  split.
  - apply StronglySorted_app_intro; [exact Hs1| |].
    + constructor; [exact Hs2|].
      eapply Forall_impl; [|exact Ha]. intros x Hx. unfold year_le. now apply ltb_leb.
    + intros x y Hx [<-|Hy].
      * rewrite Forall_forall in Hb, Hk1. unfold year_le.
        apply not_ltb_leb; [apply (Hk1 x Hx) | exact Hp | apply (Hb x Hx)].
      * now apply Hcross.
  - intros y. rewrite Hsplit at 3. unfold with_year.
    rewrite <- app_assoc, !filter_app. f_equal. simpl.
    destruct (number_eqb (effective_year pivot) y) eqn:E; [|now rewrite app_nil_r].
    fold (with_year y (skipn left l1)).
    rewrite (with_year_above y pivot _ E Ha). reflexivity.
Qed.

Lemma BinaryInsertionSort_spec (count : nat) :
  forall l1 l2 : list TimelineEvent,
    List.length l2 = count -> ascending l1 -> Forall year_known (l1 ++ l2) ->
    let out := V8Sort.BinaryInsertionSort compare_events count (List.length l1)
                                          (l1 ++ l2) in
    ascending out /\ (forall y, with_year y out = with_year y (l1 ++ l2)).
Proof.
  induction count as [|count IH]; intros l1 l2 Hlen Hasc Hk.
  - destruct l2; [|discriminate]. simpl. rewrite app_nil_r. split; [exact Hasc | reflexivity].
  - destruct l2 as [|pivot l2]; [discriminate|]. injection Hlen as Hlen.
    cbn [V8Sort.BinaryInsertionSort].
    rewrite nth_error_app2, Nat.sub_diag by lia. cbn [nth_error].
    apply Forall_app in Hk. destruct Hk as [Hk1 Hk2].
    inversion Hk2 as [|? ? Hp Hk2']; subst.
    destruct (insertion_step l1 l2 pivot Hasc Hk1 Hp)
      as [before [after [Hsplit [Hmove [Hasc' Hyear]]]]].
    rewrite Hmove.
    replace (S (List.length l1)) with (List.length (before ++ pivot :: after))
      by (rewrite Hsplit, !length_app; simpl; lia).
    assert (Hk' : Forall year_known ((before ++ pivot :: after) ++ l2)).
    { rewrite Hsplit in Hk1. apply Forall_app in Hk1. destruct Hk1 as [Hb Ha].
      apply Forall_app. split; [|exact Hk2'].
      apply Forall_app. split; [exact Hb | now constructor]. }
    destruct (IH (before ++ pivot :: after) l2 eq_refl Hasc' Hk') as [Hout Hy].
    split; [exact Hout|].
    intros y. rewrite Hy. unfold with_year in *.
    rewrite filter_app, Hyear, <- filter_app, <- app_assoc. reflexivity.
Qed.

(** X20.  On a list of fewer than 64 events whose year texts all have a
    digit, the sort of the engine (run detection and binary insertion)
    returns exactly what the Timeline Sorter returns. *)
Theorem engine_sort_agrees (events : list TimelineEvent)
        (Hdated : forallb dated events = true)
        (Hshort : (List.length events < 64)%nat) :
  V8Sort.sort compare_events events = Some (sortEvents events).
Proof.
  unfold V8Sort.sort. apply Nat.ltb_lt in Hshort. rewrite Hshort.
  pose proof (CountAndMakeRun_spec events (dated_year_known events Hdated)) as Hrun.
  destruct (V8Sort.CountAndMakeRun compare_events events) as [work runLength].
  destruct Hrun as [Hle [Hlen [Hk [Hasc Hy]]]].
  f_equal. rewrite <- Hlen.
  assert (Hn : List.length (firstn runLength work) = runLength)
    by (rewrite length_firstn; lia).
  pose proof (BinaryInsertionSort_spec (List.length work - runLength)
                (firstn runLength work) (skipn runLength work)) as Hspec.
  rewrite Hn, firstn_skipn in Hspec.
  destruct (Hspec ltac:(rewrite length_skipn; reflexivity) Hasc Hk) as [Hout Hyear].
  apply ascending_determined.
  - exact Hout.
  - now apply sortEvents_ascending.
  - intros y. now rewrite Hyear, Hy, sortEvents_with_year.
Qed.

(** ** The engine's sort with any comparator *)

Section EnginePermutation.
Context {A : Type}.
Variable comparefn : A -> A -> number.

Lemma insertion_point_bounds (work : list A) (pivot : A) (fuel left right : nat) :
  (left <= right)%nat ->
  (left <= V8Sort.insertion_point comparefn fuel work pivot left right <= right)%nat.
Proof.
  revert left right. induction fuel as [|fuel IH]; intros left right Hlr;
    cbn [V8Sort.insertion_point]; [lia|].
  destruct (left <? right)%nat eqn:Elr; [|lia].
  apply Nat.ltb_lt in Elr.
  assert (Hhalf : (Nat.div2 (right - left) < right - left)%nat)
    by (apply Nat.lt_div2; lia).
  remember (Nat.div2 (right - left)) as half eqn:Ehalf. clear Ehalf.
  destruct (nth_error work (left + half)) as [m|]; [|lia].
  destruct (V8Sort.is_negative (comparefn pivot m)).
  - specialize (IH left (left + half)%nat ltac:(lia)). lia.
  - specialize (IH (S (left + half)) right ltac:(lia)). lia.
Qed.

(** The fuel of the binary search never runs out: any amount above the
    width of the interval gives the same point. *)
Lemma insertion_point_fuel (work : list A) (pivot : A) (fuel fuel' : nat) :
  forall left right : nat,
    (right - left < fuel)%nat -> (right - left < fuel')%nat ->
    V8Sort.insertion_point comparefn fuel work pivot left right
    = V8Sort.insertion_point comparefn fuel' work pivot left right.
Proof.
  revert fuel'. induction fuel as [|fuel IH]; intros fuel' left right H1 H2; [lia|].
  destruct fuel' as [|fuel']; [lia|].
  cbn [V8Sort.insertion_point].
  destruct (left <? right)%nat eqn:Elr; [|reflexivity].
  apply Nat.ltb_lt in Elr.
  assert (Hhalf : (Nat.div2 (right - left) < right - left)%nat)
    by (apply Nat.lt_div2; lia).
  remember (Nat.div2 (right - left)) as half eqn:Ehalf. clear Ehalf.
  destruct (nth_error work (left + half)) as [m|]; [|reflexivity].
  destruct (V8Sort.is_negative (comparefn pivot m)); apply IH; lia.
Qed.

Lemma move_to_shape (l1 l2 : list A) (pivot : A) (left : nat) :
  (left <= List.length l1)%nat ->
  V8Sort.move_to (l1 ++ pivot :: l2) (List.length l1) left pivot
  = (firstn left l1 ++ pivot :: skipn left l1) ++ l2.
Proof.
  intros Hle. unfold V8Sort.move_to.
  rewrite firstn_app. replace (left - List.length l1)%nat with 0%nat by lia.
  rewrite firstn_O, app_nil_r.
  rewrite firstn_app, Nat.sub_diag, firstn_O, app_nil_r, firstn_all.
  replace (S (List.length l1)) with (List.length (l1 ++ [pivot]))
    by (rewrite length_app; simpl; lia).
  replace (l1 ++ pivot :: l2) with ((l1 ++ [pivot]) ++ l2)
    by (rewrite <- app_assoc; reflexivity).
  rewrite skipn_app, Nat.sub_diag, skipn_all, skipn_O. simpl.
  rewrite <- app_assoc. reflexivity.
Qed.

Lemma BinaryInsertionSort_perm (count : nat) :
  forall l1 l2 : list A,
    List.length l2 = count ->
    Permutation (l1 ++ l2)
      (V8Sort.BinaryInsertionSort comparefn count (List.length l1) (l1 ++ l2)).
Proof.
  induction count as [|count IH]; intros l1 l2 Hlen; [apply Permutation_refl|].
  destruct l2 as [|pivot l2]; [discriminate|]. injection Hlen as Hlen.
  cbn [V8Sort.BinaryInsertionSort].
  rewrite nth_error_app2, Nat.sub_diag by lia. cbn [nth_error].
  set (left := V8Sort.insertion_point comparefn (S (List.length l1))
                 (l1 ++ pivot :: l2) pivot 0 (List.length l1)).
  assert (Hle : (left <= List.length l1)%nat)
    by (apply insertion_point_bounds; lia).
  rewrite (move_to_shape l1 l2 pivot left Hle).
  replace (S (List.length l1))
    with (List.length (firstn left l1 ++ pivot :: skipn left l1)).
  2:{ rewrite <- (firstn_skipn left l1) at 3.
      rewrite !length_app. simpl. lia. }
  etransitivity; [|apply (IH _ l2 Hlen)].
  rewrite <- (firstn_skipn left l1) at 1.
  rewrite <- !app_assoc. apply Permutation_app_head.
  cbn [app]. apply Permutation_sym, Permutation_middle.
Qed.

Lemma CountAndMakeRun_perm (work : list A) :
  Permutation work (fst (V8Sort.CountAndMakeRun comparefn work)) /\
  (snd (V8Sort.CountAndMakeRun comparefn work) <= List.length work)%nat.
Proof.
  destruct work as [|hi [|lo rest]]; [split; simpl; auto ..|].
  cbn [V8Sort.CountAndMakeRun fst snd].
  set (d := V8Sort.is_negative (comparefn lo hi)).
  assert (Ht : (V8Sort.run_tail comparefn d lo rest <= List.length rest)%nat).
  { generalize lo. induction rest as [|c r IHr]; intros prev; simpl; [lia|].
    destruct (if d then _ else _); [lia|]. specialize (IHr c). lia. }
  split; [|simpl List.length; lia].
  destruct d; [|apply Permutation_refl].
  rewrite <- (firstn_skipn (2 + V8Sort.run_tail comparefn true lo rest)
                           (hi :: lo :: rest)) at 1.
  apply Permutation_app_tail, Permutation_rev.
Qed.

(** X21.  Whatever the comparator returns, NaN included, the sort of the
    engine returns a permutation of the array. *)
Theorem engine_sort_permutation (work out : list A) :
  V8Sort.sort comparefn work = Some out -> Permutation work out.
Proof.
  unfold V8Sort.sort. destruct (List.length work <? 64)%nat; [|discriminate].
  destruct (CountAndMakeRun_perm work) as [Hperm Hle].
  destruct (V8Sort.CountAndMakeRun comparefn work) as [work' n]. cbn [fst snd] in *.
  intros H. injection H as <-.
  etransitivity; [exact Hperm|].
  rewrite (Permutation_length Hperm).
  assert (Hn : List.length (firstn n work') = n)
    by (rewrite length_firstn; apply Permutation_length in Hperm; lia).
  pose proof (BinaryInsertionSort_perm (List.length work' - n)
                (firstn n work') (skipn n work')) as H.
  rewrite Hn, firstn_skipn in H. apply H. now rewrite length_skipn.
Qed.

End EnginePermutation.

Lemma engine_sort_agrees_witness :
  let events := [event "1392" "Joseon founded"; event "BC 108" "Gojoseon falls";
                 event "935" "Unified Silla ends"] in
  (forallb dated events = true /\ (List.length events < 64)%nat) /\
  V8Sort.sort compare_events events = Some (sortEvents events).
Proof.
  split; [split; [reflexivity | simpl; lia]|].
  apply (engine_sort_agrees
           [event "1392" "Joseon founded"; event "BC 108" "Gojoseon falls";
            event "935" "Unified Silla ends"]).
  - reflexivity.
  - simpl. lia.
Defined.

Lemma engine_sort_permutation_witness :
  let out := [event "935" "a"; event "935" "b"; event "935" "c"; event "935" "e";
              event "1392" "Joseon founded"; event "unknown" "Undated";
              event "935" "d"] in
  V8Sort.sort compare_events unstable_input = Some out /\
  Permutation unstable_input out.
Proof.
  split; [reflexivity|].
  apply (engine_sort_permutation compare_events unstable_input). reflexivity.
Defined.
